(** * Quotes, comments and users: the canister of [src/index.ts]

    A shallow embedding of the canister's three stable maps and of its nine
    exported operations, followed by the properties of its storage and
    cascade-deletion layer. The operations are those of the first revision in
    [src/index.ts], the one with the [validate*] helpers; the older revision
    that follows it in the file differs in having no such helpers, and the
    revision of [src/unnamed/part_000] is embedded apart, in [Part000].

    Conventions of the embedding:
    - a [StableBTreeMap<string, V>] is a finite map [gmap string V]; its
      [values()] enumerates the records in the key order of the B-tree, which
      the storage library fixes and which is kept abstract here ([KeyOrder]);
    - the three module-level maps form the state [State], threaded through
      every operation by the state monad [Canister];
    - [uuidv4()] and [ic.time()] are inputs of the call that uses them: the
      operations that create a record take the fresh id and the time as their
      first two arguments;
    - a [Result<T, string>] is [Result T], whose error carries the message of
      the source; it is a plain object with the one field [Ok] or [Err] and
      has no methods, so that the call [validation.isErr()] of the current
      revision throws;
    - a call either returns or throws ([Completion]); the three maps are not
      touched before the one throw there is;
    - records are assumed to fit the size bounds given to the maps (an insert
      that exceeds them aborts the call in the storage library). *)

From stdpp Require Import base option list sorting strings gmap fin_maps.
From Stdlib Require Import NArith.

Open Scope string_scope.

(** ** Results *)

Inductive Result (T : Type) : Type :=
| Ok (value : T)
| Err (error : string).
Arguments Ok {T} value.
Arguments Err {T} error.

(** A call returns a value or throws an error. *)
Inductive Completion (A : Type) : Type :=
| Returns (value : A)
| Throws (error : string).
Arguments Returns {A} value.
Arguments Throws {A} error.

(** ** Records *)

Module User.
Record t : Type := mk {
  id : string;
  name : string;
  pinCode : string;
  created : N;
  lastUpdate : option N }.
End User.

Module Quote.
Record t : Type := mk {
  id : string;
  authorId : string;
  author : string;
  quote : string;
  created : N;
  lastUpdate : option N }.
End Quote.

Module Comment.
Record t : Type := mk {
  id : string;
  authorId : string;
  authorName : string;
  quoteId : string;
  comment : string;
  created : N;
  lastUpdate : option N }.
End Comment.

Module NewUserPayload.
Record t : Type := mk { name : string; pinCode : string }.
End NewUserPayload.

Module NewQuotePayload.
Record t : Type := mk { authorId : string; quote : string }.
End NewQuotePayload.

Module NewCommentPayload.
Record t : Type := mk { authorId : string; quoteId : string; comment : string }.
End NewCommentPayload.

Module QuoteToDisplay.
Record t : Type := mk { id : string; quote : string; author : string }.
End QuoteToDisplay.

Module CommentsToDisplay.
Record t : Type := mk { comment : string; author : string }.
End CommentsToDisplay.

(** ** The stable maps *)

(** The order in which a stable B-tree enumerates its keys. *)
Class KeyOrder : Type := key_lt : string → string → bool.

Record State : Type := mkState {
  quoteStorage : gmap string Quote.t;
  userStorage : gmap string User.t;
  commentStorage : gmap string Comment.t }.

Definition init : State :=
  {| quoteStorage := ∅; userStorage := ∅; commentStorage := ∅ |}.

Definition entry_before `{KeyOrder} {V} (a b : string * V) : Prop :=
  key_lt a.1 b.1 = true.

#[global] Instance entry_before_dec `{KeyOrder} {V} (a b : string * V) :
  Decision (entry_before a b).
Proof. unfold entry_before. apply _. Defined.

(** [values()]: the records, by increasing key. *)
Definition values `{KeyOrder} {V} (m : gmap string V) : list V :=
  (merge_sort entry_before (map_to_list m)).*2.

(** ** The state monad of a call *)

Definition Canister (A : Type) : Type := State → A * State.

#[global] Instance canister_ret : MRet Canister := λ A a s, (a, s).

#[global] Instance canister_bind : MBind Canister :=
  λ A B k m s, let (a, s') := m s in k a s'.


(** [forEach]: the callback runs on every element in turn; what it returns
    is dropped. *)
Fixpoint forEach {A B} (l : list A) (f : A → Canister B) : Canister unit :=
  match l with
  | [] => mret tt
  | a :: l' => f a;; forEach l' f
  end.

Definition quoteStorage_values `{KeyOrder} : Canister (list Quote.t) :=
  λ s, (values (quoteStorage s), s).
Definition userStorage_values `{KeyOrder} : Canister (list User.t) :=
  λ s, (values (userStorage s), s).
Definition commentStorage_values `{KeyOrder} : Canister (list Comment.t) :=
  λ s, (values (commentStorage s), s).

(** [insert] returns the record it replaces. *)
Definition quoteStorage_insert (k : string) (q : Quote.t) : Canister (option Quote.t) :=
  λ s, (quoteStorage s !! k,
        {| quoteStorage := <[k := q]> (quoteStorage s);
           userStorage := userStorage s;
           commentStorage := commentStorage s |}).
Definition userStorage_insert (k : string) (u : User.t) : Canister (option User.t) :=
  λ s, (userStorage s !! k,
        {| quoteStorage := quoteStorage s;
           userStorage := <[k := u]> (userStorage s);
           commentStorage := commentStorage s |}).
Definition commentStorage_insert (k : string) (c : Comment.t) : Canister (option Comment.t) :=
  λ s, (commentStorage s !! k,
        {| quoteStorage := quoteStorage s;
           userStorage := userStorage s;
           commentStorage := <[k := c]> (commentStorage s) |}).

(** [remove] returns the record it removes. *)
Definition quoteStorage_remove (k : string) : Canister (option Quote.t) :=
  λ s, (quoteStorage s !! k,
        {| quoteStorage := delete k (quoteStorage s);
           userStorage := userStorage s;
           commentStorage := commentStorage s |}).
Definition userStorage_remove (k : string) : Canister (option User.t) :=
  λ s, (userStorage s !! k,
        {| quoteStorage := quoteStorage s;
           userStorage := delete k (userStorage s);
           commentStorage := commentStorage s |}).
Definition commentStorage_remove (k : string) : Canister (option Comment.t) :=
  λ s, (commentStorage s !! k,
        {| quoteStorage := quoteStorage s;
           userStorage := userStorage s;
           commentStorage := delete k (commentStorage s) |}).

(** ** Error messages

    The failure modes of the interface, each with the message the canister
    returns for it. *)

Definition ValidationError : string := "Invalid input: name and pinCode are required.".
Definition DuplicateName : string := "Sorry, this name is already in use...".
Definition UnknownAuthor : string := "Author with given ID not found.".
Definition UnknownQuote : string := "No quote found with the given ID.".
Definition NoComments : string := "No comments found for this quote.".
Definition EmptyResult : string := "At the moment there is no quote...".
Definition NotFoundCredentials : string := "No user found with these credentials".
Definition UnauthorizedQuote : string :=
  "You cannot delete the quote because you are not the owner.".
Definition NotFoundQuote : string := "Quote with given Id not found.".
Definition Mismatch : string := "This comment is not on the given quote.".
Definition UnauthorizedComment : string :=
  "Unable to delete the comment, you are not the author.".
Definition NotFoundComment : string := "Comment with given Id not found.".
Definition UnauthorizedUser : string := "Unable to delete user, wrong credentials.".
Definition NotFoundUser : string := "No user found with those credentials.".

(** ** The operations of [src/index.ts] *)

Section Canister.
Context `{KeyOrder}.

(** [!s] on a string: only the empty string is falsy. *)
Definition falsy (s : string) : bool := bool_decide (s = "").

Definition validateUserInput (payload : NewUserPayload.t) : Result unit :=
  if falsy (NewUserPayload.name payload) || falsy (NewUserPayload.pinCode payload)
  then Err ValidationError
  else Ok tt.

Definition validateQuoteInput (newUserQuote : NewQuotePayload.t)
    (allUsers : list User.t) : Result unit :=
  match find (λ u, bool_decide (User.id u = NewQuotePayload.authorId newUserQuote))
             allUsers with
  | None => Err UnknownAuthor
  | Some _ => Ok tt
  end.

Definition validateCommentInput (newComment : NewCommentPayload.t)
    (allUsers : list User.t) : Result unit :=
  match find (λ u, bool_decide (User.id u = NewCommentPayload.authorId newComment))
             allUsers with
  | None => Err UnknownAuthor
  | Some _ => Ok tt
  end.

Definition toDisplay (singleQuote : Quote.t) : QuoteToDisplay.t :=
  {| QuoteToDisplay.id := Quote.id singleQuote;
     QuoteToDisplay.quote := Quote.quote singleQuote;
     QuoteToDisplay.author := Quote.author singleQuote |}.

Definition commentToDisplay (c : Comment.t) : CommentsToDisplay.t :=
  {| CommentsToDisplay.comment := Comment.comment c;
     CommentsToDisplay.author := Comment.authorName c |}.

Definition getAllQuotes : Canister (Result (list QuoteToDisplay.t)) :=
  allQuotes ← quoteStorage_values;
  if bool_decide (length allQuotes = 0) then mret (Err EmptyResult)
  else
    let quoteToReturn := map toDisplay allQuotes in
    mret (Ok quoteToReturn).

Definition getQuoteComments (quoteId : string)
    : Canister (Result (list CommentsToDisplay.t)) :=
  allQuotes ← quoteStorage_values;
  match find (λ q, bool_decide (Quote.id q = quoteId)) allQuotes with
  | None => mret (Err UnknownQuote)
  | Some quoteById =>
      allComments ← commentStorage_values;
      let quoteComments := filter (λ c, Comment.quoteId c = quoteId) allComments in
      if bool_decide (length quoteComments = 0) then mret (Err NoComments)
      else
        let commentsToDisplay := map commentToDisplay quoteComments in
        mret (Ok commentsToDisplay)
  end.

Definition getMyUserData (payload : NewUserPayload.t) : Canister (Result User.t) :=
  allUsers ← userStorage_values;
  match find (λ u, bool_decide (User.name u = NewUserPayload.name payload)
                   && bool_decide (User.pinCode u = NewUserPayload.pinCode payload))
             allUsers with
  | None => mret (Err NotFoundCredentials)
  | Some userData => mret (Ok userData)
  end.

(** [validation.isErr()]: the value that the [validate*] helpers return has no
    property [isErr], and calling it throws. *)
Definition TypeError_isErr : string := "TypeError: validation.isErr is not a function".

Definition isErr {T} (validation : Result T) : Completion bool :=
  Throws TypeError_isErr.

(** [validation.error]: the statement that reads it comes after the call of
    [isErr] and so never runs; it is given the message of an [Err]. *)
Definition error {T} (validation : Result T) : string :=
  match validation with Err message => message | Ok _ => "" end.

(** The call [validation.isErr()] comes first in the three creating
    operations; what follows runs only if it returns. *)
Definition newUser (uuid : string) (time : N) (payload : NewUserPayload.t)
    : Canister (Completion (Result User.t)) :=
  let validation := validateUserInput payload in
  match isErr validation with
  | Throws thrown => mret (Throws thrown)
  | Returns true => mret (Returns (Err (error validation)))
  | Returns false =>
      allUsers ← userStorage_values;
      match find (λ u, bool_decide (User.name u = NewUserPayload.name payload))
                 allUsers with
      | Some checkUserName => mret (Returns (Err DuplicateName))
      | None =>
          let user :=
            {| User.id := uuid;
               User.created := time;
               User.lastUpdate := None;
               User.name := NewUserPayload.name payload;
               User.pinCode := NewUserPayload.pinCode payload |} in
          userStorage_insert (User.id user +:+ User.pinCode user) user;;
          mret (Returns (Ok user))
      end
  end.

Definition newQuote (uuid : string) (time : N) (newUserQuote : NewQuotePayload.t)
    : Canister (Completion (Result Quote.t)) :=
  allUsers ← userStorage_values;
  let validation := validateQuoteInput newUserQuote allUsers in
  match isErr validation with
  | Throws thrown => mret (Throws thrown)
  | Returns true => mret (Returns (Err (error validation)))
  | Returns false =>
      match find (λ u, bool_decide (User.id u = NewQuotePayload.authorId newUserQuote))
                 allUsers with
      | None => mret (Returns (Err UnknownAuthor))
      | Some userThatComments =>
          let quote :=
            {| Quote.id := uuid;
               Quote.created := time;
               Quote.lastUpdate := None;
               Quote.author := User.name userThatComments;
               Quote.authorId := NewQuotePayload.authorId newUserQuote;
               Quote.quote := NewQuotePayload.quote newUserQuote |} in
          quoteStorage_insert (Quote.id quote) quote;;
          mret (Returns (Ok quote))
      end
  end.

Definition addComment (uuid : string) (time : N) (newComment : NewCommentPayload.t)
    : Canister (Completion (Result Comment.t)) :=
  allUsers ← userStorage_values;
  let validation := validateCommentInput newComment allUsers in
  match isErr validation with
  | Throws thrown => mret (Throws thrown)
  | Returns true => mret (Returns (Err (error validation)))
  | Returns false =>
      match find (λ u, bool_decide (User.id u = NewCommentPayload.authorId newComment))
                 allUsers with
      | None => mret (Returns (Err UnknownAuthor))
      | Some userThatComments =>
          let commentToAdd :=
            {| Comment.id := uuid;
               Comment.authorName := User.name userThatComments;
               Comment.created := time;
               Comment.lastUpdate := None;
               Comment.authorId := NewCommentPayload.authorId newComment;
               Comment.quoteId := NewCommentPayload.quoteId newComment;
               Comment.comment := NewCommentPayload.comment newComment |} in
          commentStorage_insert (Comment.id commentToAdd) commentToAdd;;
          mret (Returns (Ok commentToAdd))
      end
  end.

Definition deleteComment (quoteId commentId authorId : string)
    : Canister (Result Comment.t) :=
  deleteResult ← commentStorage_remove commentId;
  match deleteResult with
  | Some commentToDelete =>
      if bool_decide (Comment.quoteId commentToDelete ≠ quoteId)
      then mret (Err Mismatch)
      else if bool_decide (Comment.authorId commentToDelete ≠ authorId)
      then mret (Err UnauthorizedComment)
      else mret (Ok commentToDelete)
  | None => mret (Err NotFoundComment)
  end.

Definition deleteQuote (quoteId authorId : string) : Canister (Result Quote.t) :=
  allQuotes ← quoteStorage_values;
  match find (λ q, bool_decide (Quote.id q = quoteId)
                   && bool_decide (Quote.authorId q = authorId)) allQuotes with
  | None => mret (Err UnauthorizedQuote)
  | Some ownedQuote =>
      deleteResult ← quoteStorage_remove quoteId;
      match deleteResult with
      | Some deletedQuote =>
          allComments ← commentStorage_values;
          let commentsToDelete :=
            filter (λ c, Comment.quoteId c = quoteId) allComments in
          (if bool_decide (length commentsToDelete ≠ 0)
           then forEach commentsToDelete
                  (λ c, deleteComment quoteId (Comment.id c) authorId)
           else mret tt);;
          mret (Ok deletedQuote)
      | None => mret (Err NotFoundQuote)
      end
  end.

Definition deleteUser (userId pinCode : string) : Canister (Result User.t) :=
  allUsers ← userStorage_values;
  match find (λ u, bool_decide (User.id u = userId)) allUsers with
  | None => mret (Err UnauthorizedUser)
  | Some userById =>
      if bool_decide (User.pinCode userById ≠ pinCode)
      then mret (Err UnauthorizedUser)
      else
        deleteResult ← userStorage_remove (userId +:+ pinCode);
        match deleteResult with
        | Some userToDelete =>
            allQuotes ← quoteStorage_values;
            let userQuotes := filter (λ q, Quote.authorId q = userId) allQuotes in
            (if bool_decide (length userQuotes ≠ 0)
             then forEach userQuotes (λ q, deleteQuote (Quote.id q) userId)
             else mret tt);;
            mret (Ok userToDelete)
        | None => mret (Err NotFoundUser)
        end
  end.

(** ** Calls and reachable states

    The invariants below are stated over the states that update calls build
    from the empty maps. So that these include states with records in them,
    the three creating calls are taken there in the reading in which
    [validation.isErr()] answers whether the validation failed: the
    [_checked] definitions below, which are [newUser], [newQuote] and
    [addComment] with that one call replaced by a match on the result. Every
    state that the operations as written reach from the empty maps is among
    them, since a call that throws changes nothing. The queries change
    nothing either. *)

Definition newUser_checked (uuid : string) (time : N) (payload : NewUserPayload.t)
    : Canister (Result User.t) :=
  match validateUserInput payload with
  | Err error => mret (Err error)
  | Ok _ =>
      allUsers ← userStorage_values;
      match find (λ u, bool_decide (User.name u = NewUserPayload.name payload))
                 allUsers with
      | Some checkUserName => mret (Err DuplicateName)
      | None =>
          let user :=
            {| User.id := uuid;
               User.created := time;
               User.lastUpdate := None;
               User.name := NewUserPayload.name payload;
               User.pinCode := NewUserPayload.pinCode payload |} in
          userStorage_insert (User.id user +:+ User.pinCode user) user;;
          mret (Ok user)
      end
  end.

Definition newQuote_checked (uuid : string) (time : N) (newUserQuote : NewQuotePayload.t)
    : Canister (Result Quote.t) :=
  allUsers ← userStorage_values;
  match validateQuoteInput newUserQuote allUsers with
  | Err error => mret (Err error)
  | Ok _ =>
      match find (λ u, bool_decide (User.id u = NewQuotePayload.authorId newUserQuote))
                 allUsers with
      | None => mret (Err UnknownAuthor)
      | Some userThatComments =>
          let quote :=
            {| Quote.id := uuid;
               Quote.created := time;
               Quote.lastUpdate := None;
               Quote.author := User.name userThatComments;
               Quote.authorId := NewQuotePayload.authorId newUserQuote;
               Quote.quote := NewQuotePayload.quote newUserQuote |} in
          quoteStorage_insert (Quote.id quote) quote;;
          mret (Ok quote)
      end
  end.

Definition addComment_checked (uuid : string) (time : N) (newComment : NewCommentPayload.t)
    : Canister (Result Comment.t) :=
  allUsers ← userStorage_values;
  match validateCommentInput newComment allUsers with
  | Err error => mret (Err error)
  | Ok _ =>
      match find (λ u, bool_decide (User.id u = NewCommentPayload.authorId newComment))
                 allUsers with
      | None => mret (Err UnknownAuthor)
      | Some userThatComments =>
          let commentToAdd :=
            {| Comment.id := uuid;
               Comment.authorName := User.name userThatComments;
               Comment.created := time;
               Comment.lastUpdate := None;
               Comment.authorId := NewCommentPayload.authorId newComment;
               Comment.quoteId := NewCommentPayload.quoteId newComment;
               Comment.comment := NewCommentPayload.comment newComment |} in
          commentStorage_insert (Comment.id commentToAdd) commentToAdd;;
          mret (Ok commentToAdd)
      end
  end.


Inductive Call : Type :=
| CallNewUser (uuid : string) (time : N) (payload : NewUserPayload.t)
| CallNewQuote (uuid : string) (time : N) (newUserQuote : NewQuotePayload.t)
| CallAddComment (uuid : string) (time : N) (newComment : NewCommentPayload.t)
| CallDeleteQuote (quoteId authorId : string)
| CallDeleteComment (quoteId commentId authorId : string)
| CallDeleteUser (userId pinCode : string).

Definition step (c : Call) (s : State) : State :=
  match c with
  | CallNewUser uuid time payload => (newUser_checked uuid time payload s).2
  | CallNewQuote uuid time newUserQuote => (newQuote_checked uuid time newUserQuote s).2
  | CallAddComment uuid time newComment => (addComment_checked uuid time newComment s).2
  | CallDeleteQuote quoteId authorId => (deleteQuote quoteId authorId s).2
  | CallDeleteComment quoteId commentId authorId =>
      (deleteComment quoteId commentId authorId s).2
  | CallDeleteUser userId pinCode => (deleteUser userId pinCode s).2
  end.

Definition run (calls : list Call) (s : State) : State :=
  foldl (λ s c, step c s) s calls.

Inductive reachable : State → Prop :=
| reachable_init : reachable init
| reachable_step c s : reachable s → reachable (step c s).

End Canister.

(** ** The revision of [src/unnamed/part_000]

    The other revision of the canister takes the denormalised names in its
    payloads, keys a user by its id alone and wraps each body in [try]/[catch].
    Nothing in the bodies embedded here throws, so the [catch] branches are
    left out. *)

Module Part000.

Module NewQuotePayload.
Record t : Type := mk { authorId : string; author : string; quote : string }.
End NewQuotePayload.

Module CommentPayload.
Record t : Type :=
  mk { authorId : string; authorName : string; quoteId : string; comment : string }.
End CommentPayload.

Definition InvalidNewUser : string :=
  "Invalid payload properties for creating a new user".

Section Canister.
Context `{KeyOrder}.

(** The declared result is [Vec<QuoteToDisplay>]; the value returned is the
    list of stored quotes itself. *)
Definition getAllQuotes : Canister (Result (list Quote.t)) :=
  allQuotes ← quoteStorage_values;
  mret (Ok allQuotes).

Definition newUser (uuid : string) (time : N) (payload : NewUserPayload.t)
    : Canister (Result User.t) :=
  if falsy (NewUserPayload.name payload) || falsy (NewUserPayload.pinCode payload)
  then mret (Err InvalidNewUser)
  else
    allUsers ← userStorage_values;
    match find (λ u, bool_decide (User.name u = NewUserPayload.name payload))
               allUsers with
    | Some checkUserName => mret (Err DuplicateName)
    | None =>
        let user :=
          {| User.id := uuid;
             User.created := time;
             User.lastUpdate := None;
             User.name := NewUserPayload.name payload;
             User.pinCode := NewUserPayload.pinCode payload |} in
        userStorage_insert (User.id user) user;;
        mret (Ok user)
    end.

Definition newQuote (uuid : string) (time : N) (newUserQuote : NewQuotePayload.t)
    : Canister (Result Quote.t) :=
  let quote :=
    {| Quote.id := uuid;
       Quote.created := time;
       Quote.lastUpdate := None;
       Quote.authorId := NewQuotePayload.authorId newUserQuote;
       Quote.author := NewQuotePayload.author newUserQuote;
       Quote.quote := NewQuotePayload.quote newUserQuote |} in
  quoteStorage_insert (Quote.id quote) quote;;
  mret (Ok quote).

Definition addComment (uuid : string) (time : N) (newComment : CommentPayload.t)
    : Canister (Result Comment.t) :=
  let commentToAdd :=
    {| Comment.id := uuid;
       Comment.created := time;
       Comment.lastUpdate := None;
       Comment.authorId := CommentPayload.authorId newComment;
       Comment.authorName := CommentPayload.authorName newComment;
       Comment.quoteId := CommentPayload.quoteId newComment;
       Comment.comment := CommentPayload.comment newComment |} in
  commentStorage_insert (Comment.id commentToAdd) commentToAdd;;
  mret (Ok commentToAdd).

(** [get] reads a key and changes nothing. *)
Definition quoteStorage_get (k : string) : Canister (option Quote.t) :=
  λ s, (quoteStorage s !! k, s).

Definition InvalidGetUser : string :=
  "Invalid payload properties for getting user data".
Definition InvalidDeleteQuote : string :=
  "Invalid payload properties for deleting a quote".
Definition InvalidDeleteComment : string :=
  "Invalid payload properties for deleting a comment".
Definition InvalidDeleteUser : string :=
  "Invalid payload properties for deleting a user".

Definition getQuoteComments (quoteId : string)
    : Canister (Result (list CommentsToDisplay.t)) :=
  quoteById ← quoteStorage_get quoteId;
  match quoteById with
  | Some quote =>
      allComments ← commentStorage_values;
      let quoteComments := filter (λ c, Comment.quoteId c = quoteId) allComments in
      if bool_decide (length quoteComments = 0) then mret (Err NoComments)
      else
        let commentsToDisplay := map commentToDisplay quoteComments in
        mret (Ok commentsToDisplay)
  | None => mret (Err UnknownQuote)
  end.

Definition getMyUserData (payload : NewUserPayload.t) : Canister (Result User.t) :=
  if falsy (NewUserPayload.name payload) || falsy (NewUserPayload.pinCode payload)
  then mret (Err InvalidGetUser)
  else
    allUsers ← userStorage_values;
    match find (λ u, bool_decide (User.name u = NewUserPayload.name payload)
                     && bool_decide (User.pinCode u = NewUserPayload.pinCode payload))
               allUsers with
    | Some userData => mret (Ok userData)
    | None => mret (Err NotFoundCredentials)
    end.

Definition deleteComment (quoteId commentId authorId : string)
    : Canister (Result Comment.t) :=
  if falsy quoteId || falsy commentId || falsy authorId
  then mret (Err InvalidDeleteComment)
  else
    deleteResult ← commentStorage_remove commentId;
    match deleteResult with
    | Some commentToDelete =>
        if bool_decide (Comment.quoteId commentToDelete ≠ quoteId)
        then mret (Err Mismatch)
        else if bool_decide (Comment.authorId commentToDelete ≠ authorId)
        then mret (Err UnauthorizedComment)
        else mret (Ok commentToDelete)
    | None => mret (Err NotFoundComment)
    end.

(** The quote is read by its key; an absent quote and a quote of another
    author give the same answer. *)
Definition deleteQuote (quoteId authorId : string) : Canister (Result Quote.t) :=
  if falsy quoteId || falsy authorId then mret (Err InvalidDeleteQuote)
  else
    ownedQuote ← quoteStorage_get quoteId;
    match ownedQuote with
    | None => mret (Err UnauthorizedQuote)
    | Some ownedQuote =>
        if bool_decide (Quote.authorId ownedQuote ≠ authorId)
        then mret (Err UnauthorizedQuote)
        else
          deleteResult ← quoteStorage_remove quoteId;
          match deleteResult with
          | Some deletedQuote =>
              allComments ← commentStorage_values;
              let commentsToDelete :=
                filter (λ c, Comment.quoteId c = quoteId) allComments in
              forEach commentsToDelete
                (λ c, deleteComment quoteId (Comment.id c) authorId);;
              mret (Ok deletedQuote)
          | None => mret (Err NotFoundQuote)
          end
    end.

(** [caller] is the text of [ic.caller()], an input of the call. The user is
    removed by its id alone; the cascade runs over the quotes whose author is
    the caller. *)
Definition deleteUser (caller : string) (userId : string)
    : Canister (Result User.t) :=
  if falsy userId then mret (Err InvalidDeleteUser)
  else
    userToDelete ← userStorage_remove userId;
    match userToDelete with
    | Some deletedUser =>
        allQuotes ← quoteStorage_values;
        let userQuotes := filter (λ q, Quote.authorId q = caller) allQuotes in
        forEach userQuotes (λ q, deleteQuote (Quote.id q) caller);;
        mret (Ok deletedUser)
    | None => mret (Err NotFoundUser)
    end.

End Canister.
End Part000.

(** ** The older revision in [src/index.ts]

    The revision that follows the current one in the file has no [validate*]
    helpers, reads [getMyUserData] off a [filter] and words some messages
    differently. *)

Module Older.

Definition NoComments : string := "No comments found for this qoute.".
Definition NotFoundCredentials : string := "No user found with this credentials".
Definition UnauthorizedQuote : string :=
  "You can not delete the qoute because you are not the owner.".
Definition Mismatch : string := "This comment is not on the given qoute.".

Section Canister.
Context `{KeyOrder}.

Definition getAllQuotes : Canister (Result (list QuoteToDisplay.t)) :=
  allQuotes ← quoteStorage_values;
  if bool_decide (length allQuotes = 0) then mret (Err EmptyResult)
  else
    let quoteToReturn := map toDisplay allQuotes in
    mret (Ok quoteToReturn).

Definition getQuoteComments (quoteId : string)
    : Canister (Result (list CommentsToDisplay.t)) :=
  allQuotes ← quoteStorage_values;
  match find (λ q, bool_decide (Quote.id q = quoteId)) allQuotes with
  | None => mret (Err UnknownQuote)
  | Some quoteById =>
      allComments ← commentStorage_values;
      let quoteComments := filter (λ c, Comment.quoteId c = quoteId) allComments in
      if bool_decide (length quoteComments = 0) then mret (Err NoComments)
      else
        let commentsToDisplay := map commentToDisplay quoteComments in
        mret (Ok commentsToDisplay)
  end.

(** [userData[0]] is read only when the filtered list is not empty. *)
Definition getMyUserData (payload : NewUserPayload.t) : Canister (Result User.t) :=
  allUsers ← userStorage_values;
  let userData :=
    filter (λ u, User.name u = NewUserPayload.name payload
                 ∧ User.pinCode u = NewUserPayload.pinCode payload) allUsers in
  if bool_decide (length userData = 0) then mret (Err NotFoundCredentials)
  else
    match userData !! 0 with
    | Some user => mret (Ok user)
    | None => mret (Err NotFoundCredentials)
    end.

Definition newUser (uuid : string) (time : N) (payload : NewUserPayload.t)
    : Canister (Result User.t) :=
  allUsers ← userStorage_values;
  match find (λ u, bool_decide (User.name u = NewUserPayload.name payload))
             allUsers with
  | Some checkUserName => mret (Err DuplicateName)
  | None =>
      let user :=
        {| User.id := uuid;
           User.created := time;
           User.lastUpdate := None;
           User.name := NewUserPayload.name payload;
           User.pinCode := NewUserPayload.pinCode payload |} in
      userStorage_insert (User.id user +:+ User.pinCode user) user;;
      mret (Ok user)
  end.

Definition newQuote (uuid : string) (time : N) (newUserQuote : NewQuotePayload.t)
    : Canister (Result Quote.t) :=
  allUser ← userStorage_values;
  match find (λ u, bool_decide (User.id u = NewQuotePayload.authorId newUserQuote))
             allUser with
  | None => mret (Err UnknownAuthor)
  | Some userThatComments =>
      let quote :=
        {| Quote.id := uuid;
           Quote.created := time;
           Quote.lastUpdate := None;
           Quote.author := User.name userThatComments;
           Quote.authorId := NewQuotePayload.authorId newUserQuote;
           Quote.quote := NewQuotePayload.quote newUserQuote |} in
      quoteStorage_insert (Quote.id quote) quote;;
      mret (Ok quote)
  end.

Definition addComment (uuid : string) (time : N) (newComment : NewCommentPayload.t)
    : Canister (Result Comment.t) :=
  allUser ← userStorage_values;
  match find (λ u, bool_decide (User.id u = NewCommentPayload.authorId newComment))
             allUser with
  | None => mret (Err UnknownAuthor)
  | Some userThatComments =>
      let commentToAdd :=
        {| Comment.id := uuid;
           Comment.authorName := User.name userThatComments;
           Comment.created := time;
           Comment.lastUpdate := None;
           Comment.authorId := NewCommentPayload.authorId newComment;
           Comment.quoteId := NewCommentPayload.quoteId newComment;
           Comment.comment := NewCommentPayload.comment newComment |} in
      commentStorage_insert (Comment.id commentToAdd) commentToAdd;;
      mret (Ok commentToAdd)
  end.

Definition deleteComment (quoteId commentId authorId : string)
    : Canister (Result Comment.t) :=
  deleteResult ← commentStorage_remove commentId;
  match deleteResult with
  | Some commentToDelete =>
      if bool_decide (Comment.quoteId commentToDelete ≠ quoteId)
      then mret (Err Mismatch)
      else if bool_decide (Comment.authorId commentToDelete ≠ authorId)
      then mret (Err UnauthorizedComment)
      else mret (Ok commentToDelete)
  | None => mret (Err NotFoundComment)
  end.

Definition deleteQuote (quoteId authorId : string) : Canister (Result Quote.t) :=
  allQuotes ← quoteStorage_values;
  match find (λ q, bool_decide (Quote.id q = quoteId)
                   && bool_decide (Quote.authorId q = authorId)) allQuotes with
  | None => mret (Err UnauthorizedQuote)
  | Some ownedQuota =>
      deleteResult ← quoteStorage_remove quoteId;
      match deleteResult with
      | Some deletedQuote =>
          allComments ← commentStorage_values;
          let commentsToDelete :=
            filter (λ c, Comment.quoteId c = quoteId) allComments in
          (if bool_decide (length commentsToDelete ≠ 0)
           then forEach commentsToDelete
                  (λ c, deleteComment quoteId (Comment.id c) authorId)
           else mret tt);;
          mret (Ok deletedQuote)
      | None => mret (Err NotFoundQuote)
      end
  end.

(** [userById?.pinCode !== pinCode]: with no user found the left side is
    [undefined], which differs from every string. *)
Definition deleteUser (userId pinCode : string) : Canister (Result User.t) :=
  allUser ← userStorage_values;
  let userById := find (λ u, bool_decide (User.id u = userId)) allUser in
  if bool_decide (User.pinCode <$> userById ≠ Some pinCode)
  then mret (Err UnauthorizedUser)
  else
    deleteResult ← userStorage_remove (userId +:+ pinCode);
    match deleteResult with
    | Some userToDelete =>
        allQuotes ← quoteStorage_values;
        let userQuotes := filter (λ q, Quote.authorId q = userId) allQuotes in
        (if bool_decide (length userQuotes ≠ 0)
         then forEach userQuotes (λ q, deleteQuote (Quote.id q) userId)
         else mret tt);;
        mret (Ok userToDelete)
    | None => mret (Err NotFoundUser)
    end.

End Canister.
End Older.

(** ** Well-formed states *)

Section Invariant.
Context `{KeyOrder}.

(** Every quote and every comment is stored under its id, every user under
    its id followed by its pin code, no stored name or pin code is empty, and
    two entries of the user map never carry the same name. *)
Record wf (s : State) : Prop := mk_wf {
  wf_quote_key k q : quoteStorage s !! k = Some q → k = Quote.id q;
  wf_comment_key k c : commentStorage s !! k = Some c → k = Comment.id c;
  wf_user_key k u :
    userStorage s !! k = Some u → k = User.id u +:+ User.pinCode u;
  wf_user_fields k u :
    userStorage s !! k = Some u → User.name u ≠ "" ∧ User.pinCode u ≠ "";
  wf_user_name k1 k2 u1 u2 :
    userStorage s !! k1 = Some u1 → userStorage s !! k2 = Some u2 →
    User.name u1 = User.name u2 → k1 = k2 }.

(** [s'] holds no record that [s] does not hold. *)
Definition shrinks (s s' : State) : Prop :=
  quoteStorage s' ⊆ quoteStorage s ∧
  userStorage s' ⊆ userStorage s ∧
  commentStorage s' ⊆ commentStorage s.

(** The quote [quoteId] and every comment on it are gone from [s]. *)
Definition gone (quoteId : string) (s : State) : Prop :=
  quoteStorage s !! quoteId = None ∧
  ∀ c, c ∈ values (commentStorage s) → Comment.quoteId c ≠ quoteId.

(** The record that creating a user builds from its payload. *)
Definition user_of (uuid : string) (time : N) (payload : NewUserPayload.t) : User.t :=
  {| User.id := uuid;
     User.created := time;
     User.lastUpdate := None;
     User.name := NewUserPayload.name payload;
     User.pinCode := NewUserPayload.pinCode payload |}.

(** The state a successful [deleteUser] starts its cascade from. *)
Definition without_user (key : string) (s : State) : State :=
  {| quoteStorage := quoteStorage s;
     userStorage := delete key (userStorage s);
     commentStorage := commentStorage s |}.

(** A later call spares the user with id [userId] and pin code [pinCode]
    when it is no [deleteUser] with that id and that pin code and, should it
    create a user, stores it under another key. *)
Definition spares (userId pinCode : string) (c : Call) : Prop :=
  match c with
  | CallDeleteUser userId' pinCode' => ¬ (userId' = userId ∧ pinCode' = pinCode)
  | CallNewUser uuid _ payload =>
      uuid +:+ NewUserPayload.pinCode payload ≠ userId +:+ pinCode
  | _ => True
  end.

(** The comment [c] is on a stored quote whose author is [userId]. *)
Definition on_quote_of (userId : string) (quotes : gmap string Quote.t)
    (c : Comment.t) : Prop :=
  ∃ q, quotes !! Comment.quoteId c = Some q ∧ Quote.authorId q = userId.

(** Two results are both successes with the same value, or both failures. *)
Definition same_outcome {T} (r1 r2 : Result T) : Prop :=
  match r1, r2 with
  | Ok v1, Ok v2 => v1 = v2
  | Err _, Err _ => True
  | _, _ => False
  end.

(** Two runs of a call agree when they leave the same state and have the
    same outcome; the message of a failure may differ. *)
Definition agree {T} (r1 r2 : Result T * State) : Prop :=
  r1.2 = r2.2 ∧ same_outcome r1.1 r2.1.

(** Every stored record is as its creation left it: no update time is set,
    and the author name copied into a quote or a comment is not empty. *)
Definition as_created (s : State) : Prop :=
  (∀ k u, userStorage s !! k = Some u → User.lastUpdate u = None) ∧
  (∀ k q, quoteStorage s !! k = Some q →
          Quote.lastUpdate q = None ∧ Quote.author q ≠ "") ∧
  (∀ k c, commentStorage s !! k = Some c →
          Comment.lastUpdate c = None ∧ Comment.authorName c ≠ "").

End Invariant.

(** ** Example states

    The states below are built by calls, under the lexicographic key order. *)

Definition lexicographic : KeyOrder := String.ltb.

Module Example.
Section Example.
#[local] Existing Instance lexicographic.

Definition alice : NewUserPayload.t :=
  {| NewUserPayload.name := "alice"; NewUserPayload.pinCode := "1111" |}.
Definition bob : NewUserPayload.t :=
  {| NewUserPayload.name := "bob"; NewUserPayload.pinCode := "2222" |}.
Definition hello : NewQuotePayload.t :=
  {| NewQuotePayload.authorId := "U1"; NewQuotePayload.quote := "hello" |}.
Definition nice : NewCommentPayload.t :=
  {| NewCommentPayload.authorId := "U2";
     NewCommentPayload.quoteId := "Q1";
     NewCommentPayload.comment := "nice" |}.
Definition stray : NewCommentPayload.t :=
  {| NewCommentPayload.authorId := "U1";
     NewCommentPayload.quoteId := "Q9";
     NewCommentPayload.comment := "nice" |}.

Definition nameless : NewUserPayload.t :=
  {| NewUserPayload.name := "alice"; NewUserPayload.pinCode := "" |}.
Definition orphan : NewQuotePayload.t :=
  {| NewQuotePayload.authorId := "U3"; NewQuotePayload.quote := "hello" |}.

Definition alice_user : User.t := User.mk "U1" "alice" "1111" 1 None.
Definition bob_user : User.t := User.mk "U2" "bob" "2222" 2 None.
Definition hello_quote : Quote.t := Quote.mk "Q1" "U1" "alice" "hello" 3 None.
Definition nice_comment : Comment.t :=
  Comment.mk "C1" "U2" "bob" "Q1" "nice" 4 None.
Definition stray_comment : Comment.t :=
  Comment.mk "C2" "U1" "alice" "Q9" "nice" 5 None.

(** alice (U1) and bob (U2); alice's quote Q1; bob's comment C1 on it. *)
Definition calls : list Call :=
  [ CallNewUser "U1" 1 alice; CallNewUser "U2" 2 bob;
    CallNewQuote "Q1" 3 hello; CallAddComment "C1" 4 nice ].

Definition one_user : State := run (take 1 calls) init.
Definition two_users : State := run (take 2 calls) init.
Definition with_quote : State := run (take 3 calls) init.
Definition with_comment : State := run calls init.

Definition carol : NewUserPayload.t :=
  {| NewUserPayload.name := "carol"; NewUserPayload.pinCode := "3333" |}.
Definition carol_user : User.t := User.mk "U3" "carol" "3333" 5 None.
Definition again : NewQuotePayload.t :=
  {| NewQuotePayload.authorId := "U1"; NewQuotePayload.quote := "again" |}.
Definition again_quote : Quote.t := Quote.mk "Q2" "U1" "alice" "again" 5 None.

(** alice, stored by the [newUser] of the older revision. *)
Definition older_alice : State := (Older.newUser "U1" 1 alice init).2.

(** alice, stored by the [newUser] of part_000, under her id alone. *)
Definition part000_alice : State := (Part000.newUser "U1" 1 alice init).2.

Definition part000_orphan : Part000.NewQuotePayload.t :=
  Part000.NewQuotePayload.mk "U3" "nobody" "hello".
Definition part000_stray : Part000.CommentPayload.t :=
  Part000.CommentPayload.mk "U1" "alice" "Q9" "nice".

(** In the revision of part_000: alice stored under her id, with her quote Q1
    and bob's quote Q2. *)
Definition part000_quotes : State :=
  (Part000.newQuote "Q2" 4 (Part000.NewQuotePayload.mk "U2" "bob" "hi")
     (Part000.newQuote "Q1" 3 (Part000.NewQuotePayload.mk "U1" "alice" "hello")
        (Part000.newUser "U1" 1 alice init).2).2).2.

End Example.
End Example.

(** ** Enumerating a map and searching the enumeration *)

Section Values.
Context `{KeyOrder} {V : Type}.
Implicit Types (m : gmap string V) (v : V) (l : list V) (f : V → bool).

Lemma elem_of_values m v : v ∈ values m ↔ ∃ k, m !! k = Some v.
Proof.
  unfold values. rewrite list_elem_of_fmap. split.
  - intros [[k v'] [-> Hin]]. exists k.
    rewrite merge_sort_Permutation in Hin. by apply elem_of_map_to_list.
  - intros [k Hk]. exists (k, v). split; [done|].
    rewrite merge_sort_Permutation. by apply elem_of_map_to_list.
Qed.

Lemma values_Permutation m : values m ≡ₚ (map_to_list m).*2.
Proof. unfold values. by rewrite merge_sort_Permutation. Qed.

Lemma values_nil m : values m = [] ↔ m = ∅.
Proof.
  split.
  - intros Hnil. apply map_empty. intros k.
    destruct (m !! k) as [v|] eqn:Hk; [|done].
    assert (v ∈ values m) as Hin by (apply elem_of_values; eauto).
    rewrite Hnil in Hin. by apply not_elem_of_nil in Hin.
  - intros ->. apply Permutation_nil_r.
    by rewrite values_Permutation, map_to_list_empty.
Qed.

Lemma find_Some_elem f l v : find f l = Some v → v ∈ l ∧ f v = true.
Proof.
  intros Hf. apply find_some in Hf as [Hin Hv].
  split; [by apply list_elem_of_In | done].
Qed.

Lemma find_None_all f l : find f l = None ↔ ∀ v, v ∈ l → f v = false.
Proof.
  split.
  - intros Hf v Hin. apply (find_none f l Hf). by apply list_elem_of_In.
  - induction l as [|a l IH]; intros Hall; [done|]. simpl.
    rewrite (Hall a) by left. apply IH. intros v Hv. apply Hall. by right.
Qed.

Lemma find_is_Some f l v : v ∈ l → f v = true → is_Some (find f l).
Proof.
  intros Hin Hv. destruct (find f l) as [w|] eqn:Hf; [by eexists|].
  rewrite find_None_all in Hf. rewrite (Hf v Hin) in Hv. done.
Qed.

Lemma find_unique f l v :
  v ∈ l → f v = true → (∀ w, w ∈ l → f w = true → w = v) → find f l = Some v.
Proof.
  intros Hin Hv Huniq. destruct (find_is_Some f l v Hin Hv) as [w Hw].
  rewrite Hw. f_equal. apply find_Some_elem in Hw as [Hwin Hwt]. by apply Huniq.
Qed.

End Values.

(** ** The queries and the creation checks *)

Section Properties.
Context `{KeyOrder}.

Ltac unfold_canister :=
  unfold mbind, canister_bind, mret, canister_ret,
    quoteStorage_values, userStorage_values, commentStorage_values,
    quoteStorage_insert, userStorage_insert, commentStorage_insert,
    quoteStorage_remove, userStorage_remove, commentStorage_remove in *.

Lemma filter_none {A} (P : A → Prop) `{∀ x, Decision (P x)} (l : list A) :
  (∀ x, x ∈ l → ¬ P x) → filter P l = [].
Proof.
  intros Hno. destruct (filter P l) as [|x l'] eqn:Hf; [done|].
  assert (x ∈ filter P l) as Hx by (rewrite Hf; left).
  apply list_elem_of_filter in Hx as [HP Hx]. by destruct (Hno x Hx).
Qed.

Lemma find_author_None (authorId : string) (users : list User.t) :
  (∀ u, u ∈ users → User.id u ≠ authorId) →
  find (λ u, bool_decide (User.id u = authorId)) users = None.
Proof.
  intros Hno. apply find_None_all. intros u Hu.
  apply bool_decide_eq_false. by apply Hno.
Qed.

(** X26. In the older revision, a payload whose [authorId] is the id of no
    stored user makes [newQuote] fail with [UnknownAuthor]; the state, and
    with it the quote map, is left as it was. *)
Theorem older_newQuote_unknown_author uuid time (newUserQuote : NewQuotePayload.t) s :
  (∀ u, u ∈ values (userStorage s) →
        User.id u ≠ NewQuotePayload.authorId newUserQuote) →
  Older.newQuote uuid time newUserQuote s = (Err UnknownAuthor, s).
Proof.
  intros Hno. unfold Older.newQuote. unfold_canister.
  by rewrite find_author_None.
Qed.


(** C8. [getQuoteComments] fails with [UnknownQuote] when no stored quote has
    the id, whatever the comment map holds, and with [NoComments] when a
    stored quote has the id and no stored comment refers to it. The quote is
    looked up first: with neither quote nor comment the failure is
    [UnknownQuote]. *)
Theorem getQuoteComments_errors quoteId s :
  ((∀ q, q ∈ values (quoteStorage s) → Quote.id q ≠ quoteId) →
   getQuoteComments quoteId s = (Err UnknownQuote, s)) ∧
  ((∃ q, q ∈ values (quoteStorage s) ∧ Quote.id q = quoteId) →
   (∀ c, c ∈ values (commentStorage s) → Comment.quoteId c ≠ quoteId) →
   getQuoteComments quoteId s = (Err NoComments, s)) ∧
  ((∀ q, q ∈ values (quoteStorage s) → Quote.id q ≠ quoteId) →
   (∀ c, c ∈ values (commentStorage s) → Comment.quoteId c ≠ quoteId) →
   getQuoteComments quoteId s ≠ (Err NoComments, s)).
Proof.
  assert ((∀ q, q ∈ values (quoteStorage s) → Quote.id q ≠ quoteId) →
          getQuoteComments quoteId s = (Err UnknownQuote, s)) as Hunknown.
  { intros Hno. unfold getQuoteComments. unfold_canister.
    replace (find _ _) with (@None Quote.t); [done|].
    symmetry. apply find_None_all. intros q Hq.
    apply bool_decide_eq_false. by apply Hno. }
  split; [done|]. split.
  - intros (q & Hq & Hid) Hnone. unfold getQuoteComments. unfold_canister.
    destruct (find_is_Some (λ q, bool_decide (Quote.id q = quoteId)) _ q Hq)
      as [q' ->]; [by apply bool_decide_eq_true|].
    replace (filter _ _) with (@nil Comment.t); [done|].
    symmetry. apply filter_none. intros c Hc. by apply Hnone.
  - intros Hno _. by rewrite (Hunknown Hno).
Qed.

(** ** What the deletions do to the state *)

#[local] Instance shrinks_refl : Reflexive shrinks.
Proof. by intros s. Qed.

#[local] Instance shrinks_trans : Transitive shrinks.
Proof.
  intros s1 s2 s3 (Hq1 & Hu1 & Hc1) (Hq2 & Hu2 & Hc2).
  repeat split; by etrans.
Qed.

Lemma wf_shrinks s s' : wf s → shrinks s s' → wf s'.
Proof.
  intros Hwf (Hq & Hu & Hc). split.
  - intros k q Hk. eapply wf_quote_key; [done|]. by eapply lookup_weaken.
  - intros k c Hk. eapply wf_comment_key; [done|]. by eapply lookup_weaken.
  - intros k u Hk. eapply wf_user_key; [done|]. by eapply lookup_weaken.
  - intros k u Hk. eapply wf_user_fields; [done|]. by eapply lookup_weaken.
  - intros k1 k2 u1 u2 Hk1 Hk2. eapply wf_user_name; [done|..];
      by eapply lookup_weaken.
Qed.

Lemma gone_shrinks quoteId s s' : gone quoteId s → shrinks s s' → gone quoteId s'.
Proof.
  intros [Hq Hc] (Hqs & _ & Hcs). split.
  - destruct (quoteStorage s' !! quoteId) as [q|] eqn:Hk; [|done].
    by rewrite (lookup_weaken _ _ _ _ Hk Hqs) in Hq.
  - intros c Hin. apply Hc. apply elem_of_values in Hin as [k Hk].
    apply elem_of_values. exists k. by eapply lookup_weaken.
Qed.

Lemma forEach_shrinks {A B} (f : A → Canister B) (l : list A) s :
  (∀ a s0, shrinks s0 (f a s0).2) → shrinks s (forEach l f s).2.
Proof.
  intros Hf. revert s. induction l as [|a l IH]; intros s; simpl.
  - done.
  - unfold_canister. specialize (Hf a s). destruct (f a s) as [b s1].
    etrans; [exact Hf|]. apply IH.
Qed.

Lemma deleteComment_state quoteId commentId authorId s :
  (deleteComment quoteId commentId authorId s).2 =
  {| quoteStorage := quoteStorage s;
     userStorage := userStorage s;
     commentStorage := delete commentId (commentStorage s) |}.
Proof.
  unfold deleteComment. unfold_canister.
  destruct (commentStorage s !! commentId) as [c|]; [|done].
  repeat case_bool_decide; done.
Qed.

Lemma deleteComment_result quoteId commentId authorId s :
  (deleteComment quoteId commentId authorId s).1 =
  match commentStorage s !! commentId with
  | Some c =>
      if decide (Comment.quoteId c ≠ quoteId) then Err Mismatch
      else if decide (Comment.authorId c ≠ authorId) then Err UnauthorizedComment
      else Ok c
  | None => Err NotFoundComment
  end.
Proof.
  unfold deleteComment. unfold_canister.
  destruct (commentStorage s !! commentId) as [c|]; [|done].
  repeat (case_bool_decide; case_decide; try done).
Qed.

Lemma deleteComment_shrinks quoteId commentId authorId s :
  shrinks s (deleteComment quoteId commentId authorId s).2.
Proof.
  rewrite deleteComment_state. repeat split; simpl; try done.
  apply delete_subseteq.
Qed.

(** The comments left by a run of [deleteComment] over [cs]. *)
Lemma forEach_deleteComment quoteId authorId (cs : list Comment.t) s :
  (forEach cs (λ c, deleteComment quoteId (Comment.id c) authorId) s).2 =
  {| quoteStorage := quoteStorage s;
     userStorage := userStorage s;
     commentStorage := foldl (λ m c, delete (Comment.id c) m) (commentStorage s) cs |}.
Proof.
  revert s. induction cs as [|c cs IH]; intros s; simpl.
  - by destruct s.
  - unfold mbind, canister_bind.
    pose proof (deleteComment_state quoteId (Comment.id c) authorId s) as Hs.
    destruct (deleteComment _ _ _ s) as [r s1]. simpl in Hs. subst s1.
    by rewrite IH.
Qed.

Lemma lookup_foldl_delete (cs : list Comment.t) (m : gmap string Comment.t) k :
  foldl (λ m c, delete (Comment.id c) m) m cs !! k =
  if decide (k ∈ Comment.id <$> cs) then None else m !! k.
Proof.
  revert m. induction cs as [|c cs IH]; intros m; [done|].
  rewrite fmap_cons. cbn [foldl]. rewrite IH.
  destruct (decide (k = Comment.id c)) as [->|Hne].
  - rewrite lookup_delete_eq, (decide_True (P := _ ∈ _ :: _)) by left.
    by case_decide.
  - rewrite lookup_delete_ne by done.
    destruct (decide (k ∈ Comment.id <$> cs)) as [Hin|Hout].
    + rewrite decide_True; [done|]. by right.
    + rewrite decide_False; [done|]. by apply not_elem_of_cons.
Qed.

Lemma find_quote_owned quoteId authorId s q :
  wf s →
  find (λ q, bool_decide (Quote.id q = quoteId)
             && bool_decide (Quote.authorId q = authorId))
       (values (quoteStorage s)) = Some q →
  quoteStorage s !! quoteId = Some q ∧ Quote.authorId q = authorId.
Proof.
  intros Hwf Hfind. apply find_Some_elem in Hfind as [Hin Hq].
  apply andb_true_iff in Hq as [Hid Hauthor].
  apply bool_decide_eq_true in Hid, Hauthor.
  apply elem_of_values in Hin as [k Hk].
  by rewrite <- Hid, <- (wf_quote_key s Hwf k q Hk).
Qed.

Lemma find_quote_owned_Some quoteId authorId s q :
  quoteStorage s !! quoteId = Some q → Quote.id q = quoteId →
  Quote.authorId q = authorId →
  is_Some (find (λ q, bool_decide (Quote.id q = quoteId)
                      && bool_decide (Quote.authorId q = authorId))
                (values (quoteStorage s))).
Proof.
  intros Hk Hid Hauthor. apply (find_is_Some _ _ q).
  - apply elem_of_values. eauto.
  - apply andb_true_iff. split; by apply bool_decide_eq_true.
Qed.

Lemma deleteQuote_shrinks quoteId authorId s :
  shrinks s (deleteQuote quoteId authorId s).2.
Proof.
  unfold deleteQuote. unfold_canister.
  destruct (find _ _) as [owned|]; [|done].
  destruct (quoteStorage s !! quoteId) as [q|]; simpl.
  - set (s1 := mkState _ _ _).
    assert (shrinks s s1) as Hs1.
    { repeat split; simpl; try done. apply delete_subseteq. }
    case_bool_decide; simpl; [|done].
    pose proof (forEach_shrinks
      (λ c, deleteComment quoteId (Comment.id c) authorId)
      (filter (λ c, Comment.quoteId c = quoteId) (values (commentStorage s1)))
      s1 (λ a s0, deleteComment_shrinks _ _ _ s0)) as Hfe.
    destruct (forEach _ _ s1) as [u s2]. simpl in *. by etrans.
  - repeat split; simpl; try done. apply delete_subseteq.
Qed.

(** A quote removed by its author takes every comment on it along. *)
Lemma deleteQuote_gone quoteId authorId s q :
  wf s → quoteStorage s !! quoteId = Some q → Quote.authorId q = authorId →
  (deleteQuote quoteId authorId s).1 = Ok q ∧
  gone quoteId (deleteQuote quoteId authorId s).2.
Proof.
  intros Hwf Hk Hauthor.
  pose proof (wf_quote_key s Hwf _ _ Hk) as Hid.
  destruct (find_quote_owned_Some quoteId authorId s q Hk) as [q' Hfind];
    [done..|].
  unfold deleteQuote. unfold_canister. rewrite Hfind, Hk. simpl.
  set (s1 := mkState _ _ _).
  set (cs := filter _ _).
  assert (gone quoteId (forEach cs
            (λ c, deleteComment quoteId (Comment.id c) authorId) s1).2) as Hgone.
  { rewrite forEach_deleteComment. split; simpl.
    - apply lookup_delete_eq.
    - intros c Hin Hc. apply elem_of_values in Hin as [k Hin].
      rewrite lookup_foldl_delete in Hin. case_decide as Hmem; [done|].
      apply Hmem. replace k with (Comment.id c).
      + apply list_elem_of_fmap. exists c. split; [done|].
        apply list_elem_of_filter. split; [done|].
        apply elem_of_values. eauto.
      + symmetry. by eapply wf_comment_key. }
  case_bool_decide as Hlen.
  - destruct (forEach cs _ s1) as [u s2]. done.
  - split; [done|]. simpl.
    assert (cs = []) as Hnil.
    { apply nil_length_inv. destruct (length cs); [done|]. by destruct Hlen. }
    rewrite Hnil in Hgone. exact Hgone.
Qed.

Lemma deleteQuote_miss quoteId authorId s :
  find (λ q, bool_decide (Quote.id q = quoteId)
             && bool_decide (Quote.authorId q = authorId))
       (values (quoteStorage s)) = None →
  deleteQuote quoteId authorId s = (Err UnauthorizedQuote, s).
Proof. intros Hfind. unfold deleteQuote. unfold_canister. by rewrite Hfind. Qed.

Lemma guarded_forEach {A B} (l : list A) (f : A → Canister B) :
  (if bool_decide (length l ≠ 0) then forEach l f else λ s, (tt, s)) = forEach l f.
Proof.
  case_bool_decide as Hlen; [done|].
  replace l with (@nil A); [done|].
  symmetry. apply nil_length_inv. destruct (length l); [done|]. by destruct Hlen.
Qed.

Lemma deleteQuote_lookup_ne quoteId authorId s k :
  k ≠ quoteId →
  quoteStorage (deleteQuote quoteId authorId s).2 !! k = quoteStorage s !! k.
Proof.
  intros Hne. unfold deleteQuote. unfold_canister.
  destruct (find _ _) as [owned|]; [|done].
  destruct (quoteStorage s !! quoteId) as [q|]; simpl.
  - rewrite guarded_forEach. set (s1 := mkState _ _ _).
    pose proof (forEach_deleteComment quoteId authorId
      (filter (λ c, Comment.quoteId c = quoteId) (values (commentStorage s1)))
      s1) as Hfe.
    destruct (forEach _ _ s1) as [u s2]. simpl in *. subst s2. simpl.
    by apply lookup_delete_ne.
  - by apply lookup_delete_ne.
Qed.

Lemma deleteQuote_users quoteId authorId s :
  userStorage (deleteQuote quoteId authorId s).2 = userStorage s.
Proof.
  unfold deleteQuote. unfold_canister.
  destruct (find _ _); [|done].
  destruct (quoteStorage s !! _); [|done]. simpl. rewrite guarded_forEach.
  set (s0 := mkState _ _ _).
  pose proof (forEach_deleteComment quoteId authorId
    (filter (λ c, Comment.quoteId c = quoteId) (values (commentStorage s0)))
    s0) as Hfe.
  destruct (forEach _ _ s0) as [? s2]. simpl in *. by subst s2.
Qed.

Lemma forEach_deleteQuote_users authorId (l : list Quote.t) s :
  userStorage (forEach l (λ q, deleteQuote (Quote.id q) authorId) s).2 =
  userStorage s.
Proof.
  revert s. induction l as [|q l IH]; intros s; [done|].
  simpl. unfold mbind, canister_bind.
  pose proof (deleteQuote_users (Quote.id q) authorId s) as Hq.
  destruct (deleteQuote _ _ s) as [r s2]. simpl in *. by rewrite IH.
Qed.

Lemma deleteUser_unfold userId pinCode s :
  deleteUser userId pinCode s =
  match find (λ u, bool_decide (User.id u = userId)) (values (userStorage s)) with
  | None => (Err UnauthorizedUser, s)
  | Some userById =>
      if decide (User.pinCode userById ≠ pinCode) then (Err UnauthorizedUser, s)
      else
        let s1 := without_user (userId +:+ pinCode) s in
        match userStorage s !! (userId +:+ pinCode) with
        | Some userToDelete =>
            (Ok userToDelete,
             (forEach (filter (λ q, Quote.authorId q = userId)
                              (values (quoteStorage s1)))
                      (λ q, deleteQuote (Quote.id q) userId) s1).2)
        | None => (Err NotFoundUser, s1)
        end
  end.
Proof.
  unfold deleteUser. unfold_canister.
  destruct (find _ _) as [userById|]; [|done].
  case_bool_decide; case_decide; try done.
  destruct (userStorage s !! _) as [u|]; [|done]. simpl.
  rewrite guarded_forEach. fold (without_user (userId +:+ pinCode) s).
  by destruct (forEach _ _ _).
Qed.

Lemma without_user_shrinks key s : shrinks s (without_user key s).
Proof. repeat split; simpl; try done. apply delete_subseteq. Qed.

Lemma deleteUser_shrinks userId pinCode s :
  shrinks s (deleteUser userId pinCode s).2.
Proof.
  rewrite deleteUser_unfold.
  destruct (find _ _) as [u|]; [|done].
  case_decide; [done|]. simpl.
  destruct (userStorage s !! _) as [u'|]; simpl.
  - etrans; [apply (without_user_shrinks (userId +:+ pinCode))|].
    apply forEach_shrinks. intros q s0. apply deleteQuote_shrinks.
  - apply without_user_shrinks.
Qed.

(** Running [deleteQuote] over quotes of one author, each still stored or
    already gone, leaves every one of them gone. *)
Lemma forEach_deleteQuote_gone userId (l : list Quote.t) s :
  wf s →
  (∀ q, q ∈ l → Quote.authorId q = userId ∧
                 (quoteStorage s !! Quote.id q = Some q ∨ gone (Quote.id q) s)) →
  ∀ q, q ∈ l →
    gone (Quote.id q) (forEach l (λ q, deleteQuote (Quote.id q) userId) s).2.
Proof.
  revert s. induction l as [|q0 l IH]; intros s Hwf Hl q Hq.
  { by apply not_elem_of_nil in Hq. }
  simpl. unfold mbind, canister_bind.
  pose proof (deleteQuote_shrinks (Quote.id q0) userId s) as Hshr.
  pose proof (deleteQuote_lookup_ne (Quote.id q0) userId s) as Hne.
  assert (∀ q', quoteStorage s !! Quote.id q0 = Some q' →
                Quote.authorId q' = userId →
                gone (Quote.id q0) (deleteQuote (Quote.id q0) userId s).2) as Hhit.
  { intros q' Hk Hauthor. by eapply deleteQuote_gone. }
  destruct (deleteQuote (Quote.id q0) userId s) as [r s1]. simpl in *.
  assert (wf s1) as Hwf1 by by eapply wf_shrinks.
  assert (gone (Quote.id q0) s1) as Hgone0.
  { destruct (Hl q0) as [Hauthor [Hk|Hgone]]; [by left|..].
    - by eapply Hhit.
    - by eapply gone_shrinks. }
  apply elem_of_cons in Hq as [->|Hq].
  - eapply gone_shrinks; [exact Hgone0|].
    apply forEach_shrinks. intros q' s0. apply deleteQuote_shrinks.
  - apply IH; [done| |done].
    intros q' Hq'. destruct (Hl q') as [Hauthor [Hk|Hgone]]; [by right|..].
    + split; [done|].
      destruct (decide (Quote.id q' = Quote.id q0)) as [Heq|Hdiff].
      * right. rewrite Heq. rewrite Heq in Hk. by eapply Hhit.
      * left. by rewrite Hne.
    + split; [done|]. right. by eapply gone_shrinks.
Qed.

(** ** Creation keeps the state well formed *)

Lemma newUser_unfold uuid time payload s :
  newUser_checked uuid time payload s =
  if falsy (NewUserPayload.name payload) || falsy (NewUserPayload.pinCode payload)
  then (Err ValidationError, s)
  else
    match find (λ u, bool_decide (User.name u = NewUserPayload.name payload))
               (values (userStorage s)) with
    | Some _ => (Err DuplicateName, s)
    | None =>
        (Ok (user_of uuid time payload),
         {| quoteStorage := quoteStorage s;
            userStorage :=
              <[uuid +:+ NewUserPayload.pinCode payload := user_of uuid time payload]>
                (userStorage s);
            commentStorage := commentStorage s |})
    end.
Proof.
  unfold newUser_checked, validateUserInput. unfold_canister.
  destruct (falsy _ || falsy _); [done|].
  by destruct (find _ _).
Qed.

Lemma wf_init : wf init.
Proof. split; simpl; intros *; by rewrite ?lookup_empty. Qed.

Lemma wf_newUser uuid time payload s : wf s → wf (newUser_checked uuid time payload s).2.
Proof.
  intros Hwf. rewrite newUser_unfold.
  destruct (falsy _ || falsy _) eqn:Hvalid; [done|].
  destruct (find _ _) as [u|] eqn:Hfind; [done|]. simpl.
  apply orb_false_iff in Hvalid as [Hname Hpin].
  apply bool_decide_eq_false in Hname, Hpin.
  assert (∀ k u, userStorage s !! k = Some u →
                 User.name u ≠ NewUserPayload.name payload) as Hfresh.
  { intros k u Hk. rewrite find_None_all in Hfind.
    eapply bool_decide_eq_false, Hfind, elem_of_values. eauto. }
  split; simpl; try apply Hwf.
  - intros k u. rewrite lookup_insert. case_decide as Hk.
    + intros [= <-]. by rewrite <- Hk.
    + by apply wf_user_key.
  - intros k u. rewrite lookup_insert. case_decide as Hk.
    + intros [= <-]. by split.
    + by apply wf_user_fields.
  - intros k1 k2 u1 u2. rewrite !lookup_insert.
    repeat case_decide; try congruence.
    + intros [= <-] Hk2 Hname'. symmetry in Hname'. by destruct (Hfresh _ _ Hk2).
    + intros Hk1 [= <-] Hname'. by destruct (Hfresh _ _ Hk1).
    + by apply wf_user_name.
Qed.

Lemma newQuote_state uuid time newUserQuote s :
  (newQuote_checked uuid time newUserQuote s).2 = s ∨
  ∃ q, Quote.id q = uuid ∧
       (newQuote_checked uuid time newUserQuote s).2 =
       {| quoteStorage := <[uuid := q]> (quoteStorage s);
          userStorage := userStorage s;
          commentStorage := commentStorage s |}.
Proof.
  unfold newQuote_checked, validateQuoteInput. unfold_canister.
  destruct (find _ _) as [u|]; [|by left].
  right. eexists. split; [|reflexivity]. reflexivity.
Qed.

Lemma addComment_state uuid time newComment s :
  (addComment_checked uuid time newComment s).2 = s ∨
  ∃ c, Comment.id c = uuid ∧
       (addComment_checked uuid time newComment s).2 =
       {| quoteStorage := quoteStorage s;
          userStorage := userStorage s;
          commentStorage := <[uuid := c]> (commentStorage s) |}.
Proof.
  unfold addComment_checked, validateCommentInput. unfold_canister.
  destruct (find _ _) as [u|]; [|by left].
  right. eexists. split; [|reflexivity]. reflexivity.
Qed.

Lemma wf_newQuote uuid time newUserQuote s :
  wf s → wf (newQuote_checked uuid time newUserQuote s).2.
Proof.
  intros Hwf.
  destruct (newQuote_state uuid time newUserQuote s) as [->|(q & Hid & ->)];
    [done|].
  split; simpl; try apply Hwf.
  intros k q'. rewrite lookup_insert. case_decide as Hk.
  - intros [= <-]. by rewrite <- Hk.
  - by apply wf_quote_key.
Qed.

Lemma wf_addComment uuid time newComment s :
  wf s → wf (addComment_checked uuid time newComment s).2.
Proof.
  intros Hwf.
  destruct (addComment_state uuid time newComment s) as [->|(c & Hid & ->)];
    [done|].
  split; simpl; try apply Hwf.
  intros k c'. rewrite lookup_insert. case_decide as Hk.
  - intros [= <-]. by rewrite <- Hk.
  - by apply wf_comment_key.
Qed.

Lemma wf_step c s : wf s → wf (step c s).
Proof.
  intros Hwf. destruct c; simpl.
  - by apply wf_newUser.
  - by apply wf_newQuote.
  - by apply wf_addComment.
  - eapply wf_shrinks; [done|]. apply deleteQuote_shrinks.
  - eapply wf_shrinks; [done|]. apply deleteComment_shrinks.
  - eapply wf_shrinks; [done|]. apply deleteUser_shrinks.
Qed.

Lemma reachable_wf s : reachable s → wf s.
Proof. induction 1; [apply wf_init | by apply wf_step]. Qed.

Lemma reachable_run calls s : reachable s → reachable (run calls s).
Proof.
  revert s. induction calls as [|c calls IH]; intros s Hs; [done|].
  apply IH. by constructor.
Qed.

(** ** The deletions *)

Lemma stored_quote s q :
  wf s → q ∈ values (quoteStorage s) → quoteStorage s !! Quote.id q = Some q.
Proof.
  intros Hwf Hin. apply elem_of_values in Hin as [k Hk].
  by rewrite <- (wf_quote_key s Hwf k q Hk).
Qed.

Lemma stored_comment s c :
  wf s → c ∈ values (commentStorage s) →
  commentStorage s !! Comment.id c = Some c.
Proof.
  intros Hwf Hin. apply elem_of_values in Hin as [k Hk].
  by rewrite <- (wf_comment_key s Hwf k c Hk).
Qed.

(** C1. When [deleteUser userId pinCode] succeeds in a reachable state, no
    quote with [authorId = userId] is left in the quote map, and no comment,
    whoever wrote it, is left in the comment map on a quote that [userId]
    had authored. *)
Theorem deleteUser_cascade userId pinCode s u s' :
  reachable s →
  deleteUser userId pinCode s = (Ok u, s') →
  (∀ q, q ∈ values (quoteStorage s') → Quote.authorId q ≠ userId) ∧
  (∀ q c, q ∈ values (quoteStorage s) → Quote.authorId q = userId →
          c ∈ values (commentStorage s') → Comment.quoteId c ≠ Quote.id q).
Proof.
  intros Hwf%reachable_wf Hdel.
  pose proof (deleteUser_shrinks userId pinCode s) as Hshr.
  rewrite Hdel in Hshr. simpl in Hshr.
  rewrite deleteUser_unfold in Hdel.
  destruct (find _ _) as [userById|]; [|done].
  case_decide; [done|]. simpl in Hdel.
  destruct (userStorage s !! _) as [u'|]; [|done].
  injection Hdel as _ Hs'.
  set (s1 := without_user (userId +:+ pinCode) s) in *.
  assert (wf s1) as Hwf1.
  { eapply wf_shrinks; [done|]. apply without_user_shrinks. }
  assert (∀ q, q ∈ values (quoteStorage s) → Quote.authorId q = userId →
               gone (Quote.id q) s') as Hgone.
  { intros q Hq Hauthor. rewrite <- Hs'.
    apply forEach_deleteQuote_gone; [done| |].
    - intros q' Hq'. apply list_elem_of_filter in Hq' as [Hauthor' Hq'].
      split; [done|]. left. by apply stored_quote.
    - apply list_elem_of_filter. done. }
  split.
  - intros q Hq Hauthor.
    pose proof (wf_shrinks s s' Hwf Hshr) as Hwf'.
    pose proof (stored_quote s' q Hwf' Hq) as Hk.
    destruct (Hgone q) as [Hnone _]; [|done|congruence].
    apply elem_of_values. exists (Quote.id q).
    destruct Hshr as (Hqs & _). by eapply lookup_weaken.
  - intros q c Hq Hauthor Hc. destruct (Hgone q Hq Hauthor) as [_ Hnone].
    by apply Hnone.
Qed.

(** C3. In a reachable state that stores a comment [c] with id [commentId],
    [deleteComment quoteId commentId authorId] removes [c] whatever it then
    returns: [Mismatch] when [c] is on another quote, [Unauthorized] when it
    is on that quote and by another author. After either error the comment
    is gone and the state has changed. *)
Theorem deleteComment_removes_before_validating quoteId commentId authorId s c :
  reachable s →
  c ∈ values (commentStorage s) → Comment.id c = commentId →
  ∃ r s',
    deleteComment quoteId commentId authorId s = (r, s') ∧
    (Comment.quoteId c ≠ quoteId → r = Err Mismatch) ∧
    (Comment.quoteId c = quoteId → Comment.authorId c ≠ authorId →
     r = Err UnauthorizedComment) ∧
    commentStorage s' = delete commentId (commentStorage s) ∧
    commentStorage s' !! commentId = None ∧
    (c ∉ values (commentStorage s')) ∧
    s' ≠ s.
Proof.
  intros Hwf%reachable_wf Hin <-.
  pose proof (stored_comment s c Hwf Hin) as Hk.
  pose proof (deleteComment_state quoteId (Comment.id c) authorId s) as Hstate.
  pose proof (deleteComment_result quoteId (Comment.id c) authorId s) as Hres.
  pose proof (deleteComment_shrinks quoteId (Comment.id c) authorId s) as Hshr.
  destruct (deleteComment _ _ _ s) as [r s']. simpl in *.
  rewrite Hk in Hres. exists r, s'.
  assert (commentStorage s' !! Comment.id c = None) as Hnone.
  { rewrite Hstate. simpl. apply lookup_delete_eq. }
  split; [done|]. split; [|split; [|split; [|split; [|split]]]].
  - intros Hq. by rewrite decide_True in Hres.
  - intros Hq Ha. by rewrite decide_False, decide_True in Hres by auto.
  - by rewrite Hstate.
  - done.
  - intros Hin'. apply (wf_shrinks _ _ Hwf) in Hshr.
    apply (stored_comment s' c Hshr) in Hin'. congruence.
  - intros ->. congruence.
Qed.

(** C5. In a reachable state that stores a quote [q], [deleteQuote] called
    on [q]'s id by anyone but [q]'s author fails with [Unauthorized] and
    changes nothing: [q] is still stored under its id. *)
Theorem deleteQuote_not_owner authorId s q :
  reachable s →
  q ∈ values (quoteStorage s) → authorId ≠ Quote.authorId q →
  deleteQuote (Quote.id q) authorId s = (Err UnauthorizedQuote, s) ∧
  quoteStorage (deleteQuote (Quote.id q) authorId s).2 !! Quote.id q = Some q.
Proof.
  intros Hwf%reachable_wf Hin Hne.
  pose proof (stored_quote s q Hwf Hin) as Hk.
  assert (deleteQuote (Quote.id q) authorId s = (Err UnauthorizedQuote, s)) as ->.
  { apply deleteQuote_miss.
    destruct (find _ _) as [q'|] eqn:Hfind; [|done].
    apply (find_quote_owned _ _ _ _ Hwf) in Hfind as [Hk' Hauthor].
    congruence. }
  done.
Qed.

(** C10. In a reachable state every user is stored under its id followed by
    its pin code; so when the scan by id finds a user whose pin code is the
    one given, [deleteUser] removes that very user and returns it. *)
Theorem deleteUser_removes_found_user s :
  reachable s →
  (∀ k u, userStorage s !! k = Some u → k = User.id u +:+ User.pinCode u) ∧
  (∀ userId pinCode u,
     find (λ u, bool_decide (User.id u = userId)) (values (userStorage s)) = Some u →
     User.pinCode u = pinCode →
     ∃ s', deleteUser userId pinCode s = (Ok u, s') ∧
           userStorage s' = delete (userId +:+ pinCode) (userStorage s) ∧
           userStorage s' !! (userId +:+ pinCode) = None ∧
           u ∉ values (userStorage s')).
Proof.
  intros Hwf%reachable_wf. split; [apply Hwf|].
  intros userId pinCode u Hfind Hpin.
  pose proof Hfind as [Hin Hid%bool_decide_eq_true]%find_Some_elem.
  apply elem_of_values in Hin as [k Hk].
  pose proof (wf_user_key s Hwf k u Hk) as Hkey.
  rewrite Hid, Hpin in Hkey. subst k.
  rewrite deleteUser_unfold, Hfind, decide_False by auto. simpl. rewrite Hk.
  set (s1 := without_user (userId +:+ pinCode) s).
  eexists. split; [done|].
  rewrite forEach_deleteQuote_users. simpl.
  split; [done|]. split; [apply lookup_delete_eq|].
  intros [k' Hk']%elem_of_values. simpl in Hk'.
  apply lookup_delete_Some in Hk' as [Hne Hk'].
  apply (wf_user_key s Hwf) in Hk'. rewrite Hid, Hpin in Hk'. done.
Qed.

(** ** Users *)

Lemma newUser_Ok uuid time payload s u s1 :
  newUser_checked uuid time payload s = (Ok u, s1) →
  u = user_of uuid time payload ∧
  userStorage s1 = <[uuid +:+ NewUserPayload.pinCode payload := u]> (userStorage s) ∧
  ∀ w, w ∈ values (userStorage s) → User.name w ≠ NewUserPayload.name payload.
Proof.
  rewrite newUser_unfold. destruct (falsy _ || falsy _); [done|].
  destruct (find _ _) as [w|] eqn:Hfind; [done|].
  intros [= <- <-]. split; [done|]. split; [done|].
  intros w Hw. rewrite find_None_all in Hfind.
  by eapply bool_decide_eq_false, Hfind.
Qed.

Lemma getMyUserData_stored payload s u :
  u ∈ values (userStorage s) →
  User.name u = NewUserPayload.name payload →
  User.pinCode u = NewUserPayload.pinCode payload →
  (∀ w, w ∈ values (userStorage s) → User.name w = User.name u → w = u) →
  getMyUserData payload s = (Ok u, s).
Proof.
  intros Hin Hname Hpin Huniq. unfold getMyUserData. unfold_canister.
  rewrite (find_unique _ _ u); [done|done|..].
  - apply andb_true_iff. split; by apply bool_decide_eq_true.
  - intros w Hw [Hw1%bool_decide_eq_true _]%andb_true_iff.
    apply Huniq; [done|congruence].
Qed.

Lemma wf_name_unique s u w :
  wf s → u ∈ values (userStorage s) → w ∈ values (userStorage s) →
  User.name w = User.name u → w = u.
Proof.
  intros Hwf [k1 Hk1]%elem_of_values [k2 Hk2]%elem_of_values Hname.
  pose proof (wf_user_name s Hwf _ _ _ _ Hk2 Hk1 Hname). congruence.
Qed.

Lemma spares_step u c s :
  wf s → userStorage s !! (User.id u +:+ User.pinCode u) = Some u →
  spares (User.id u) (User.pinCode u) c →
  userStorage (step c s) !! (User.id u +:+ User.pinCode u) = Some u.
Proof.
  intros Hwf Hk Hc. destruct c; simpl in *.
  - rewrite newUser_unfold. destruct (falsy _ || falsy _); [done|].
    destruct (find _ _); [done|]. simpl. by rewrite lookup_insert_ne.
  - by destruct (newQuote_state uuid time newUserQuote s) as [->|(q & _ & ->)].
  - by destruct (addComment_state uuid time newComment s) as [->|(q & _ & ->)].
  - by rewrite deleteQuote_users.
  - by rewrite deleteComment_state.
  - rewrite deleteUser_unfold.
    destruct (find _ _) as [w|] eqn:Hfind; [|done].
    case_decide as Hpin; [done|]. simpl.
    assert (userId +:+ pinCode ≠ User.id u +:+ User.pinCode u) as Hne.
    { intros Hkey. apply find_Some_elem in Hfind as [Hw Hwid%bool_decide_eq_true].
      apply elem_of_values in Hw as [k' Hk'].
      pose proof (wf_user_key s Hwf k' w Hk') as Hkw.
      rewrite Hwid, Hpin, Hkey in Hkw. subst k'.
      apply Hc. split; congruence. }
    destruct (userStorage s !! (userId +:+ pinCode)); simpl.
    + rewrite forEach_deleteQuote_users. simpl. by rewrite lookup_delete_ne.
    + by rewrite lookup_delete_ne.
Qed.

Lemma spares_run u calls s :
  reachable s → userStorage s !! (User.id u +:+ User.pinCode u) = Some u →
  Forall (spares (User.id u) (User.pinCode u)) calls →
  userStorage (run calls s) !! (User.id u +:+ User.pinCode u) = Some u.
Proof.
  intros Hs Hk Hcalls. revert s Hs Hk.
  induction Hcalls as [|c calls Hc Hcalls IH]; intros s Hs Hk; [done|].
  simpl. apply IH; [by constructor|].
  eapply spares_step; [by apply reachable_wf|done..].
Qed.

(** X28. A user stored in a reachable state is still found under its name and
    pin code after any further calls, as long as none of them is the
    [deleteUser] with the user's id and pin code: the deletions of quotes and
    comments, the deletions of other users and the refused deletions leave
    it where it is. *)
Theorem stored_user_survives s u calls :
  reachable s → u ∈ values (userStorage s) →
  Forall (spares (User.id u) (User.pinCode u)) calls →
  getMyUserData (NewUserPayload.mk (User.name u) (User.pinCode u)) (run calls s) =
  (Ok u, run calls s).
Proof.
  intros Hs [k Hk]%elem_of_values Hcalls.
  rewrite (wf_user_key s (reachable_wf s Hs) k u Hk) in Hk.
  assert (u ∈ values (userStorage (run calls s))) as Hin.
  { apply elem_of_values. eexists. by eapply spares_run. }
  apply getMyUserData_stored; [done..|].
  intros w Hw Hname. eapply wf_name_unique; [|done..].
  by apply reachable_wf, reachable_run.
Qed.

(** X25. In every reachable state two stored users with different ids have
    different names. *)
Theorem user_names_unique s :
  reachable s →
  ∀ u1 u2, u1 ∈ values (userStorage s) → u2 ∈ values (userStorage s) →
           User.id u1 ≠ User.id u2 → User.name u1 ≠ User.name u2.
Proof.
  intros Hwf%reachable_wf u1 u2 Hu1 Hu2 Hid Hname. apply Hid.
  by rewrite (wf_name_unique s u2 u1 Hwf Hu2 Hu1).
Qed.

(** X29. The [newUser] of the older revision compares names exactly, so with
    their case. A payload whose name a stored user has is turned down with
    [DuplicateName] and nothing changes. Any other payload is accepted: the
    new user has the generated id, is stored under that id followed by the
    pin code, and [getMyUserData] on the same payload then returns it. *)
Theorem older_newUser_outcomes uuid time payload s :
  ((∃ u, u ∈ values (userStorage s) ∧ User.name u = NewUserPayload.name payload) →
   Older.newUser uuid time payload s = (Err DuplicateName, s)) ∧
  ((∀ u, u ∈ values (userStorage s) → User.name u ≠ NewUserPayload.name payload) →
   ∃ s1, Older.newUser uuid time payload s = (Ok (user_of uuid time payload), s1) ∧
         userStorage s1 !! (uuid +:+ NewUserPayload.pinCode payload) =
           Some (user_of uuid time payload) ∧
         getMyUserData payload s1 = (Ok (user_of uuid time payload), s1)).
Proof.
  unfold Older.newUser. unfold_canister. split.
  - intros (u & Hu & Hname).
    destruct (find_is_Some
      (λ u, bool_decide (User.name u = NewUserPayload.name payload))
      (values (userStorage s)) u Hu) as [w ->]; [by apply bool_decide_eq_true|].
    done.
  - intros Hfresh.
    replace (find _ _) with (@None User.t); cycle 1.
    { symmetry. apply find_None_all. intros u Hu.
      apply bool_decide_eq_false. by apply Hfresh. }
    eexists. split; [done|]. simpl. split; [apply lookup_insert_eq|].
    apply getMyUserData_stored; [|done..|].
    + apply elem_of_values. eexists. apply lookup_insert_eq.
    + intros w [k Hk]%elem_of_values Hname. simpl in Hk.
      apply lookup_insert_Some in Hk as [[_ <-]|[_ Hk]]; [done|].
      destruct (Hfresh w); [apply elem_of_values; eauto|done].
Qed.

(** C2 (as the code has it). No revision looks the [quoteId] of a comment up,
    and in none does [addComment] return [UnknownQuote]. In the revision of
    part_000 it stores the comment for every payload. In the older revision
    of [src/index.ts] it fails with [UnknownAuthor], changing nothing, when no
    stored user has the payload's [authorId]; when one has, it stores the new
    comment under its id and returns it, whether or not the payload's
    [quoteId] is the id of a stored quote. The [validateCommentInput] of the
    current revision scans the users alone as well. *)
Theorem addComment_checks_author_only uuid time s :
  (∀ newComment : Part000.CommentPayload.t,
     ∃ c, Part000.addComment uuid time newComment s =
          (Ok c, {| quoteStorage := quoteStorage s;
                    userStorage := userStorage s;
                    commentStorage := <[uuid := c]> (commentStorage s) |}) ∧
          Comment.id c = uuid ∧
          Comment.quoteId c = Part000.CommentPayload.quoteId newComment) ∧
  (∀ newComment : NewCommentPayload.t,
     ((∀ u, u ∈ values (userStorage s) →
            User.id u ≠ NewCommentPayload.authorId newComment) →
      Older.addComment uuid time newComment s = (Err UnknownAuthor, s)) ∧
     (∀ u, find (λ u, bool_decide
                        (User.id u = NewCommentPayload.authorId newComment))
                (values (userStorage s)) = Some u →
           ∃ c, Older.addComment uuid time newComment s =
                (Ok c, {| quoteStorage := quoteStorage s;
                          userStorage := userStorage s;
                          commentStorage := <[uuid := c]> (commentStorage s) |}) ∧
                Comment.id c = uuid ∧
                Comment.quoteId c = NewCommentPayload.quoteId newComment ∧
                Comment.authorId c = NewCommentPayload.authorId newComment ∧
                Comment.authorName c = User.name u) ∧
     (Older.addComment uuid time newComment s).1 ≠ Err UnknownQuote ∧
     validateCommentInput newComment (values (userStorage s)) ≠ Err UnknownQuote ∧
     (addComment uuid time newComment s).1 ≠ Returns (Err UnknownQuote)).
Proof.
  split.
  - intros newComment. eexists. split; [reflexivity|done].
  - intros newComment.
    unfold Older.addComment, addComment, validateCommentInput. unfold_canister.
    split; [|split; [|split; [|split]]].
    + intros Hno. by rewrite find_author_None.
    + intros u ->. eexists. split; [reflexivity|done].
    + by destruct (find _ _).
    + by destruct (find _ _).
    + done.
Qed.

End Properties.

(** ** The revision of [src/unnamed/part_000]

    That revision checks less: it lists the quotes without the empty-is-error
    policy and creates quotes and comments without looking up the author. *)

Section Part000Properties.
Context `{KeyOrder}.

Lemma part000_getAllQuotes_succeeds s :
  Part000.getAllQuotes s = (Ok (values (quoteStorage s)), s).
Proof. done. Qed.

Lemma part000_getAllQuotes_empty : Part000.getAllQuotes init = (Ok [], init).
Proof.
  rewrite part000_getAllQuotes_succeeds.
  by rewrite (proj2 (values_nil (quoteStorage init))).
Qed.

Lemma part000_newQuote_succeeds uuid time newUserQuote s :
  ∃ q, Part000.newQuote uuid time newUserQuote s =
       (Ok q, {| quoteStorage := <[uuid := q]> (quoteStorage s);
                 userStorage := userStorage s;
                 commentStorage := commentStorage s |}).
Proof. by eexists. Qed.

Lemma part000_addComment_succeeds uuid time newComment s :
  ∃ c, Part000.addComment uuid time newComment s =
       (Ok c, {| quoteStorage := quoteStorage s;
                 userStorage := userStorage s;
                 commentStorage := <[uuid := c]> (commentStorage s) |}).
Proof. by eexists. Qed.

End Part000Properties.

(** ** The properties at work on the example states *)

Section Examples.
#[local] Existing Instance lexicographic.
Import Example.

Lemma reachable_examples :
  reachable one_user ∧ reachable two_users ∧
  reachable with_quote ∧ reachable with_comment.
Proof. repeat split; apply reachable_run, reachable_init. Qed.

Lemma with_comment_maps :
  userStorage with_comment = {[ "U11111" := alice_user; "U22222" := bob_user ]} ∧
  quoteStorage with_comment = {[ "Q1" := hello_quote ]} ∧
  commentStorage with_comment = {[ "C1" := nice_comment ]}.
Proof. by vm_compute. Qed.

(** The end-to-end run of the specification: once alice is deleted, her
    quote and bob's comment on it are gone. *)
Lemma deleteUser_end_to_end :
  deleteUser "U1" "1111" with_comment =
  (Ok alice_user,
   {| quoteStorage := ∅;
      userStorage := {[ "U22222" := bob_user ]};
      commentStorage := ∅ |}) ∧
  getQuoteComments "Q1" (deleteUser "U1" "1111" with_comment).2 =
  (Err UnknownQuote, (deleteUser "U1" "1111" with_comment).2).
Proof. by vm_compute. Qed.

(** The state that the older revision builds for alice is the one the
    example calls build. *)
Lemma older_alice_one_user : older_alice = one_user.
Proof. by vm_compute. Qed.

(** The older [newUser] keeps the case of names apart: with alice stored,
    Alice is accepted and a second alice is not. *)
Lemma older_newUser_case_sensitive :
  userStorage older_alice !! "U11111" = Some alice_user ∧
  (Older.newUser "U3" 5 (NewUserPayload.mk "Alice" "3333") older_alice).1 =
    Ok (User.mk "U3" "Alice" "3333" 5 None) ∧
  Older.newUser "U3" 5 (NewUserPayload.mk "alice" "3333") older_alice =
    (Err DuplicateName, older_alice).
Proof. by vm_compute. Qed.

(** C2, as stated, fails. In the revision of part_000, on the empty state,
    [addComment] on the quote id Q9 succeeds and stores the comment. In the
    older revision of [src/index.ts], with alice stored and no quote at all,
    it does so too. *)
Lemma addComment_unknown_quote_counterexample :
  quoteStorage init = ∅ ∧
  Part000.CommentPayload.quoteId part000_stray = "Q9" ∧
  Part000.addComment "C2" 5 part000_stray init =
    (Ok stray_comment,
     {| quoteStorage := ∅; userStorage := ∅;
        commentStorage := {[ "C2" := stray_comment ]} |}) ∧
  (Part000.addComment "C2" 5 part000_stray init).1 ≠ Err UnknownQuote ∧
  quoteStorage older_alice = ∅ ∧
  NewCommentPayload.quoteId stray = "Q9" ∧
  (Older.addComment "C2" 5 stray older_alice).1 = Ok stray_comment ∧
  commentStorage (Older.addComment "C2" 5 stray older_alice).2 !! "C2" =
    Some stray_comment ∧
  commentStorage older_alice !! "C2" = None.
Proof. by vm_compute. Qed.

(** C4. With alice stored, [newUser] on a second alice does not answer
    [DuplicateName]: it throws at [validation.isErr()], as it does on every
    payload. The older revision and part_000 turn the payload down with
    their duplicate-name error and change nothing. *)
Lemma newUser_duplicate_name_throws :
  userStorage older_alice !! "U11111" = Some alice_user ∧
  User.name alice_user = NewUserPayload.name alice ∧
  newUser "U3" 5 alice older_alice = (Throws TypeError_isErr, older_alice) ∧
  (newUser "U3" 5 alice older_alice).1 ≠ Returns (Err DuplicateName) ∧
  Older.newUser "U3" 5 alice older_alice = (Err DuplicateName, older_alice) ∧
  Part000.newUser "U3" 5 alice part000_alice = (Err DuplicateName, part000_alice).
Proof. by vm_compute. Qed.

(** C6. No user has the id U3. [newQuote] does not answer [UnknownAuthor]:
    it throws at [validation.isErr()]. The [newQuote] of part_000 looks no
    author up and stores the quote. The older revision of [src/index.ts]
    answers [UnknownAuthor] and stores nothing. *)
Lemma newQuote_unknown_author_diverges :
  userStorage init = ∅ ∧
  newQuote "Q2" 5 orphan init = (Throws TypeError_isErr, init) ∧
  Part000.newQuote "Q2" 5 part000_orphan init =
    (Ok (Quote.mk "Q2" "U3" "nobody" "hello" 5 None),
     {| quoteStorage := {[ "Q2" := Quote.mk "Q2" "U3" "nobody" "hello" 5 None ]};
        userStorage := ∅; commentStorage := ∅ |}) ∧
  Older.newQuote "Q2" 5 orphan init = (Err UnknownAuthor, init) ∧
  newQuote "Q2" 5 orphan two_users = (Throws TypeError_isErr, two_users) ∧
  Older.newQuote "Q2" 5 orphan two_users = (Err UnknownAuthor, two_users).
Proof. by vm_compute. Qed.

(** C7. On the empty state the [getAllQuotes] of part_000 answers with a
    successful empty list, where both revisions of [src/index.ts] answer
    [EmptyResult]. *)
Lemma part000_getAllQuotes_empty_success :
  quoteStorage init = ∅ ∧
  Part000.getAllQuotes init = (Ok [], init) ∧
  getAllQuotes init = (Err EmptyResult, init) ∧
  Older.getAllQuotes init = (Err EmptyResult, init).
Proof. by vm_compute. Qed.

(** C9. The round trip stops at its first step: [newUser] on alice throws at
    [validation.isErr()] and stores nothing, so [getMyUserData] does not find
    her. In the older revision the same calls return alice with the id U1
    both times. *)
Lemma newUser_getMyUserData_roundtrip_fails :
  newUser "U1" 1 alice init = (Throws TypeError_isErr, init) ∧
  getMyUserData alice (newUser "U1" 1 alice init).2 =
    (Err NotFoundCredentials, init) ∧
  Older.newUser "U1" 1 alice init = (Ok alice_user, older_alice) ∧
  Older.getMyUserData alice older_alice = (Ok alice_user, older_alice) ∧
  User.id alice_user = "U1".
Proof. by vm_compute. Qed.

End Examples.

Section Witnesses.
#[local] Existing Instance lexicographic.
Import Example.

(** Deleting alice from the full example state leaves none of her quotes
    and no comment on them. *)
Lemma deleteUser_cascade_witness :
  (∀ q, q ∈ values (quoteStorage (deleteUser "U1" "1111" with_comment).2) →
        Quote.authorId q ≠ "U1") ∧
  (∀ q c, q ∈ values (quoteStorage with_comment) → Quote.authorId q = "U1" →
          c ∈ values (commentStorage (deleteUser "U1" "1111" with_comment).2) →
          Comment.quoteId c ≠ Quote.id q).
Proof.
  apply (deleteUser_cascade "U1" "1111" with_comment alice_user).
  - apply reachable_run, reachable_init.
  - by vm_compute.
Defined.

(** bob's comment C1 is on Q1; asked to delete it from Q9, [deleteComment]
    answers [Mismatch] and the comment is gone all the same. *)
Lemma deleteComment_removes_before_validating_witness :
  ∃ r s',
    deleteComment "Q9" "C1" "U2" with_comment = (r, s') ∧
    (Comment.quoteId nice_comment ≠ "Q9" → r = Err Mismatch) ∧
    (Comment.quoteId nice_comment = "Q9" → Comment.authorId nice_comment ≠ "U2" →
     r = Err UnauthorizedComment) ∧
    commentStorage s' = delete "C1" (commentStorage with_comment) ∧
    commentStorage s' !! "C1" = None ∧
    (nice_comment ∉ values (commentStorage s')) ∧
    s' ≠ with_comment.
Proof.
  apply (deleteComment_removes_before_validating "Q9" "C1" "U2" with_comment
           nice_comment).
  - apply reachable_run, reachable_init.
  - apply elem_of_values. exists "C1". by vm_compute.
  - reflexivity.
Defined.

(** bob is not the author of Q1: his [deleteQuote] is refused and Q1 stays. *)
Lemma deleteQuote_not_owner_witness :
  deleteQuote "Q1" "U2" with_comment = (Err UnauthorizedQuote, with_comment) ∧
  quoteStorage (deleteQuote "Q1" "U2" with_comment).2 !! "Q1" = Some hello_quote.
Proof.
  apply (deleteQuote_not_owner "U2" with_comment hello_quote).
  - apply reachable_run, reachable_init.
  - apply elem_of_values. exists "Q1". by vm_compute.
  - by vm_compute.
Defined.

(** No stored user has the id U3. *)
Lemma older_newQuote_unknown_author_witness :
  Older.newQuote "Q2" 5 orphan two_users = (Err UnknownAuthor, two_users).
Proof.
  apply (older_newQuote_unknown_author "Q2" 5 orphan two_users).
  intros u [k Hk]%elem_of_values.
  assert (userStorage two_users =
          {[ "U11111" := alice_user; "U22222" := bob_user ]}) as Hmap
    by by vm_compute.
  rewrite Hmap in Hk.
  apply lookup_insert_Some in Hk as [[_ <-]|[_ Hk]]; [by vm_compute|].
  apply lookup_singleton_Some in Hk as [_ <-]. by vm_compute.
Defined.

(** alice is still found after bob has joined, a quote and a comment were
    added, and a [deleteUser] with her id and another pin code was refused. *)
Lemma stored_user_survives_witness :
  getMyUserData alice
    (run (drop 1 calls ++ [CallDeleteUser "U1" "9999"]) one_user) =
  (Ok alice_user, run (drop 1 calls ++ [CallDeleteUser "U1" "9999"]) one_user).
Proof.
  apply (stored_user_survives one_user alice_user
           (drop 1 calls ++ [CallDeleteUser "U1" "9999"])).
  - apply reachable_run, reachable_init.
  - apply elem_of_values. exists "U11111". by vm_compute.
  - cbv [calls drop app].
    repeat constructor; try done; vm_compute; by intros [_ ?].
Defined.

(** bob, found by his id with his pin code, is removed by [deleteUser]. *)
Lemma deleteUser_removes_found_user_witness :
  ∃ s', deleteUser "U2" "2222" two_users = (Ok bob_user, s') ∧
        userStorage s' = delete ("U2" +:+ "2222") (userStorage two_users) ∧
        userStorage s' !! ("U2" +:+ "2222") = None ∧
        bob_user ∉ values (userStorage s').
Proof.
  destruct (deleteUser_removes_found_user two_users) as [_ Hdelete].
  - apply reachable_run, reachable_init.
  - apply (Hdelete "U2" "2222" bob_user); by vm_compute.
Defined.

(** alice and bob have different ids and different names. *)
Lemma user_names_unique_witness :
  reachable two_users ∧
  (∀ u1 u2, u1 ∈ values (userStorage two_users) →
            u2 ∈ values (userStorage two_users) →
            User.id u1 ≠ User.id u2 → User.name u1 ≠ User.name u2).
Proof.
  assert (reachable two_users) as Hreachable
    by apply reachable_run, reachable_init.
  split; [exact Hreachable|].
  exact (user_names_unique two_users Hreachable).
Defined.

End Witnesses.

(** ** Outcomes of the update calls *)

Section Outcomes.
Context `{KeyOrder}.

Ltac unfold_calls :=
  unfold mbind, canister_bind, mret, canister_ret,
    quoteStorage_values, userStorage_values, commentStorage_values,
    quoteStorage_insert, userStorage_insert, commentStorage_insert,
    quoteStorage_remove, userStorage_remove, commentStorage_remove in *.

Lemma state_eta s :
  {| quoteStorage := quoteStorage s;
     userStorage := userStorage s;
     commentStorage := commentStorage s |} = s.
Proof. by destruct s. Qed.

(** What [deleteQuote] does in a well-formed state, by the record stored
    under the id. *)
Lemma deleteQuote_wf_unfold quoteId authorId s :
  wf s →
  deleteQuote quoteId authorId s =
  match quoteStorage s !! quoteId with
  | Some q =>
      if decide (Quote.authorId q = authorId)
      then (Ok q,
            {| quoteStorage := delete quoteId (quoteStorage s);
               userStorage := userStorage s;
               commentStorage :=
                 foldl (λ m c, delete (Comment.id c) m) (commentStorage s)
                       (filter (λ c, Comment.quoteId c = quoteId)
                               (values (commentStorage s))) |})
      else (Err UnauthorizedQuote, s)
  | None => (Err UnauthorizedQuote, s)
  end.
Proof.
  intros Hwf.
  destruct (find (λ q, bool_decide (Quote.id q = quoteId)
                       && bool_decide (Quote.authorId q = authorId))
                 (values (quoteStorage s))) as [q'|] eqn:Hfind.
  - destruct (find_quote_owned _ _ _ _ Hwf Hfind) as [Hk Hauthor].
    rewrite Hk, decide_True by done.
    unfold deleteQuote. unfold_calls. rewrite Hfind, Hk. simpl.
    rewrite guarded_forEach. set (s1 := mkState _ _ _).
    pose proof (forEach_deleteComment quoteId authorId
      (filter (λ c, Comment.quoteId c = quoteId) (values (commentStorage s1)))
      s1) as Hfe.
    destruct (forEach _ _ s1) as [u s2]. simpl in *. by subst s2.
  - rewrite (deleteQuote_miss _ _ _ Hfind).
    destruct (quoteStorage s !! quoteId) as [q|] eqn:Hk; [|done].
    case_decide as Hauthor; [|done].
    destruct (find_quote_owned_Some quoteId authorId s q Hk) as [q' Hq'];
      [symmetry; by eapply wf_quote_key|done|congruence].
Qed.

(** After the cascade of a quote, the comments left are those on other
    quotes. *)
Lemma lookup_comments_off quoteId s k c :
  wf s →
  foldl (λ m c, delete (Comment.id c) m) (commentStorage s)
        (filter (λ c, Comment.quoteId c = quoteId) (values (commentStorage s)))
    !! k = Some c ↔
  commentStorage s !! k = Some c ∧ Comment.quoteId c ≠ quoteId.
Proof.
  intros Hwf. rewrite lookup_foldl_delete. case_decide as Hin; split.
  - done.
  - intros [Hk Hne]. apply list_elem_of_fmap in Hin as (c' & -> & Hc').
    apply list_elem_of_filter in Hc' as [Hq Hc'].
    apply (stored_comment s c' Hwf) in Hc'. congruence.
  - intros Hk. split; [done|]. intros Hq. apply Hin.
    rewrite (wf_comment_key s Hwf k c Hk).
    apply list_elem_of_fmap. exists c. split; [done|].
    apply list_elem_of_filter. split; [done|]. apply elem_of_values. eauto.
  - by intros [Hk _].
Qed.


(** X2. In a reachable state, [deleteQuote] called by the author of a stored
    quote returns that quote and removes it together with exactly the
    comments on it: the users, the other quotes and the comments on other
    quotes stay as they are. *)
Theorem deleteQuote_success_exact quoteId authorId s q :
  reachable s →
  quoteStorage s !! quoteId = Some q → Quote.authorId q = authorId →
  ∃ s', deleteQuote quoteId authorId s = (Ok q, s') ∧
        userStorage s' = userStorage s ∧
        quoteStorage s' = delete quoteId (quoteStorage s) ∧
        ∀ k c, commentStorage s' !! k = Some c ↔
               commentStorage s !! k = Some c ∧ Comment.quoteId c ≠ quoteId.
Proof.
  intros Hwf%reachable_wf Hk Hauthor.
  rewrite (deleteQuote_wf_unfold _ _ _ Hwf), Hk, decide_True by done.
  eexists. split; [done|]. simpl. split; [done|]. split; [done|].
  intros k c. by apply lookup_comments_off.
Qed.

(** X3. In a reachable state [deleteQuote] never answers that the quote was
    not found: an id under which nothing is stored, like a quote of another
    author, gets the not-the-owner error, and nothing changes. *)
Theorem deleteQuote_never_not_found quoteId authorId s :
  reachable s →
  (deleteQuote quoteId authorId s).1 ≠ Err NotFoundQuote ∧
  (quoteStorage s !! quoteId = None →
   deleteQuote quoteId authorId s = (Err UnauthorizedQuote, s)) ∧
  (∀ q, quoteStorage s !! quoteId = Some q → Quote.authorId q ≠ authorId →
        deleteQuote quoteId authorId s = (Err UnauthorizedQuote, s)).
Proof.
  intros Hwf%reachable_wf. rewrite (deleteQuote_wf_unfold _ _ _ Hwf).
  destruct (quoteStorage s !! quoteId) as [q|]; [|done].
  case_decide; repeat split; try done.
  intros q' [= <-] Hne. done.
Qed.

Lemma deleteQuote_step_quotes quoteId authorId s k q :
  wf s →
  quoteStorage (deleteQuote quoteId authorId s).2 !! k = Some q ↔
  quoteStorage s !! k = Some q ∧ ¬ (k = quoteId ∧ Quote.authorId q = authorId).
Proof.
  intros Hwf. rewrite (deleteQuote_wf_unfold _ _ _ Hwf).
  destruct (quoteStorage s !! quoteId) as [q0|] eqn:Hk0; [case_decide|]; simpl.
  - rewrite lookup_delete_Some. split.
    + intros [Hne Hk]. split; [done|]. by intros [-> _].
    + intros [Hk Hnot]. split; [|done]. intros <-. apply Hnot. split; congruence.
  - split; [|by intros [? _]]. intros Hk. split; [done|].
    intros [-> Hq]. congruence.
  - split; [|by intros [? _]]. intros Hk. split; [done|].
    intros [-> Hq]. congruence.
Qed.

Lemma deleteQuote_step_comments quoteId authorId s k c :
  wf s →
  commentStorage (deleteQuote quoteId authorId s).2 !! k = Some c ↔
  commentStorage s !! k = Some c ∧
  ¬ (Comment.quoteId c = quoteId ∧ on_quote_of authorId (quoteStorage s) c).
Proof.
  intros Hwf. rewrite (deleteQuote_wf_unfold _ _ _ Hwf). unfold on_quote_of.
  destruct (quoteStorage s !! quoteId) as [q0|] eqn:Hk0; [case_decide|]; simpl.
  - rewrite (lookup_comments_off _ _ _ _ Hwf). split.
    + intros [Hk Hne]. split; [done|]. by intros [? _].
    + intros [Hk Hnot]. split; [done|]. intros Hq. apply Hnot.
      split; [done|]. rewrite Hq. eauto.
  - split; [|by intros [? _]]. intros Hk. split; [done|].
    intros [Hq (q & Hkq & Hauthor)]. rewrite Hq in Hkq. congruence.
  - split; [|by intros [? _]]. intros Hk. split; [done|].
    intros [Hq (q & Hkq & Hauthor)]. rewrite Hq in Hkq. congruence.
Qed.

(** The maps left by a run of [deleteQuote], for one author, over the ids of
    the quotes [l]. *)
Lemma forEach_deleteQuote_exact authorId (l : list Quote.t) s :
  wf s →
  let s' := (forEach l (λ q, deleteQuote (Quote.id q) authorId) s).2 in
  (∀ k q, quoteStorage s' !! k = Some q ↔
          quoteStorage s !! k = Some q ∧
          ¬ (k ∈ Quote.id <$> l ∧ Quote.authorId q = authorId)) ∧
  (∀ k c, commentStorage s' !! k = Some c ↔
          commentStorage s !! k = Some c ∧
          ¬ (Comment.quoteId c ∈ Quote.id <$> l ∧
             on_quote_of authorId (quoteStorage s) c)).
Proof.
  revert s. induction l as [|q0 l IH]; intros s Hwf; simpl.
  { split; intros; (split; [intros ?; split; [done|] | by intros [? _]]);
      intros [Hin _]; by apply not_elem_of_nil in Hin. }
  unfold mbind, canister_bind.
  pose proof (deleteQuote_step_quotes (Quote.id q0) authorId s) as Hquotes.
  pose proof (deleteQuote_step_comments (Quote.id q0) authorId s) as Hcomments.
  pose proof (deleteQuote_shrinks (Quote.id q0) authorId s) as Hshr.
  destruct (deleteQuote (Quote.id q0) authorId s) as [r s1]. simpl in *.
  destruct (IH s1 (wf_shrinks _ _ Hwf Hshr)) as [IHq IHc]. split.
  - intros k q. rewrite IHq, (Hquotes _ _ Hwf), elem_of_cons.
    destruct (decide (k = Quote.id q0)); intuition congruence.
  - intros k c. rewrite IHc, (Hcomments _ _ Hwf), elem_of_cons.
    assert (on_quote_of authorId (quoteStorage s1) c ↔
            on_quote_of authorId (quoteStorage s) c ∧
            Comment.quoteId c ≠ Quote.id q0) as ->.
    { unfold on_quote_of. split.
      - intros (q & Hq & Hauthor). apply (Hquotes _ _ Hwf) in Hq as [Hq Hnot].
        split; [eauto|]. intros Heq. apply Hnot. done.
      - intros [(q & Hq & Hauthor) Hne]. exists q. split; [|done].
        apply (Hquotes _ _ Hwf). split; [done|]. by intros [? _]. }
    destruct (decide (Comment.quoteId c = Quote.id q0)); intuition congruence.
Qed.

(** X4. A successful [deleteUser] in a reachable state removes the user,
    exactly the quotes whose author it is and exactly the comments on those
    quotes. The other users, the quotes of other authors and every comment
    on such a quote stay, also the comments the deleted user wrote there. *)
Theorem deleteUser_exact userId pinCode s u s' :
  reachable s →
  deleteUser userId pinCode s = (Ok u, s') →
  userStorage s' = delete (userId +:+ pinCode) (userStorage s) ∧
  (∀ k q, quoteStorage s' !! k = Some q ↔
          quoteStorage s !! k = Some q ∧ Quote.authorId q ≠ userId) ∧
  (∀ k c, commentStorage s' !! k = Some c ↔
          commentStorage s !! k = Some c ∧
          ¬ on_quote_of userId (quoteStorage s) c).
Proof.
  intros Hwf%reachable_wf. rewrite deleteUser_unfold.
  destruct (find _ _) as [userById|]; [|done].
  case_decide; [done|]. cbv zeta.
  destruct (userStorage s !! _) as [u'|]; [|done]. intros [= _ <-].
  set (s1 := without_user (userId +:+ pinCode) s).
  assert (wf s1) as Hwf1.
  { eapply wf_shrinks; [done|]. apply without_user_shrinks. }
  destruct (forEach_deleteQuote_exact userId
    (filter (λ q, Quote.authorId q = userId) (values (quoteStorage s1))) s1 Hwf1)
    as [Hq Hc].
  split; [by rewrite forEach_deleteQuote_users|].
  change (quoteStorage s1) with (quoteStorage s) in Hq, Hc.
  change (commentStorage s1) with (commentStorage s) in Hc.
  assert (∀ k q, quoteStorage s !! k = Some q → Quote.authorId q = userId →
                 k ∈ Quote.id <$> filter (λ q, Quote.authorId q = userId)
                                         (values (quoteStorage s))) as Hmem.
  { intros k q Hk Hauthor. rewrite (wf_quote_key s Hwf k q Hk).
    apply list_elem_of_fmap. exists q. split; [done|].
    apply list_elem_of_filter. split; [done|]. apply elem_of_values. eauto. }
  split.
  - intros k q. rewrite Hq. simpl. split.
    + intros [Hk Hnot]. split; [done|]. intros Hauthor. apply Hnot. eauto.
    + intros [Hk Hne]. split; [done|]. by intros [_ ?].
  - intros k c. rewrite Hc. simpl. split.
    + intros [Hk Hnot]. split; [done|]. intros Hon. apply Hnot. split; [|done].
      destruct Hon as (q & Hkq & Hauthor). eauto.
    + intros [Hk Hnot]. split; [done|]. by intros [_ ?].
Qed.

(** X5. In a reachable state [deleteUser] never answers that no user was
    found under the key: when the scan by id finds a user with the given pin
    code the call succeeds, and when every stored user with that id has
    another pin code, or none has that id, the call fails with the
    wrong-credentials error and changes nothing. *)
Theorem deleteUser_never_not_found userId pinCode s :
  reachable s →
  (deleteUser userId pinCode s).1 ≠ Err NotFoundUser ∧
  ((∀ u, u ∈ values (userStorage s) → User.id u = userId →
         User.pinCode u ≠ pinCode) →
   deleteUser userId pinCode s = (Err UnauthorizedUser, s)) ∧
  ((deleteUser userId pinCode s).1 ≠ Err UnauthorizedUser →
   ∃ u, u ∈ values (userStorage s) ∧ User.id u = userId ∧
        User.pinCode u = pinCode ∧ (deleteUser userId pinCode s).1 = Ok u).
Proof.
  intros Hwf%reachable_wf. rewrite deleteUser_unfold.
  destruct (find _ _) as [w|] eqn:Hfind.
  - apply find_Some_elem in Hfind as [Hw Hid%bool_decide_eq_true].
    case_decide as Hpin.
    + repeat split; done.
    + pose proof Hw as [k Hk]%elem_of_values.
      pose proof (wf_user_key s Hwf k w Hk) as Hkey.
      rewrite Hid, Hpin in Hkey. subst k. simpl. rewrite Hk.
      repeat split; try done.
      * intros Hall. by destruct (Hall w).
      * intros _. exists w. done.
  - repeat split; try done.
Qed.

End Outcomes.

(** ** Invariants of the maps, and the queries *)

Section Stored.
Context `{KeyOrder}.

Ltac unfold_calls :=
  unfold mbind, canister_bind, mret, canister_ret,
    quoteStorage_values, userStorage_values, commentStorage_values,
    quoteStorage_insert, userStorage_insert, commentStorage_insert,
    quoteStorage_remove, userStorage_remove, commentStorage_remove in *.

(** X6. In every reachable state a quote is stored under its id and a
    comment under its id, so an id names at most one record of its map: two
    stored quotes, or two stored comments, with the same id are the same
    record. *)
Theorem ids_are_keys s :
  reachable s →
  (∀ q, q ∈ values (quoteStorage s) → quoteStorage s !! Quote.id q = Some q) ∧
  (∀ c, c ∈ values (commentStorage s) →
        commentStorage s !! Comment.id c = Some c) ∧
  (∀ q1 q2, q1 ∈ values (quoteStorage s) → q2 ∈ values (quoteStorage s) →
            Quote.id q1 = Quote.id q2 → q1 = q2) ∧
  (∀ c1 c2, c1 ∈ values (commentStorage s) → c2 ∈ values (commentStorage s) →
            Comment.id c1 = Comment.id c2 → c1 = c2).
Proof.
  intros Hwf%reachable_wf. repeat split.
  - intros q. by apply stored_quote.
  - intros c. by apply stored_comment.
  - intros q1 q2 H1%(stored_quote s q1 Hwf) H2%(stored_quote s q2 Hwf) Hid.
    congruence.
  - intros c1 c2 H1%(stored_comment s c1 Hwf) H2%(stored_comment s c2 Hwf) Hid.
    congruence.
Qed.


(** X8. [getMyUserData] changes nothing and gives a user away only to who
    knows both its name and its pin code: a success returns a stored user
    with the payload's name and pin code, and when no stored user has both,
    a wrong pin code included, the answer is the not-found error. *)
Theorem getMyUserData_sound payload s :
  ∃ r, getMyUserData payload s = (r, s) ∧
       (∀ u, r = Ok u →
             u ∈ values (userStorage s) ∧
             User.name u = NewUserPayload.name payload ∧
             User.pinCode u = NewUserPayload.pinCode payload) ∧
       ((∀ u, u ∈ values (userStorage s) →
              User.name u = NewUserPayload.name payload →
              User.pinCode u ≠ NewUserPayload.pinCode payload) →
        r = Err NotFoundCredentials) ∧
       (∀ error, r = Err error → error = NotFoundCredentials).
Proof.
  unfold getMyUserData. unfold_calls.
  destruct (find _ _) as [u|] eqn:Hfind; eexists; (split; [done|]).
  - apply find_Some_elem in Hfind as [Hin Hu].
    apply andb_true_iff in Hu as [Hname%bool_decide_eq_true Hpin%bool_decide_eq_true].
    split; [|split].
    + by intros u' [= <-].
    + intros Hall. by destruct (Hall u).
    + done.
  - split; [done|]. split; [done|]. by intros error [= <-].
Qed.

Lemma getQuoteComments_filter quoteId s q c :
  q ∈ values (quoteStorage s) → Quote.id q = quoteId →
  c ∈ values (commentStorage s) → Comment.quoteId c = quoteId →
  getQuoteComments quoteId s =
  (Ok (commentToDisplay <$> filter (λ c, Comment.quoteId c = quoteId)
                                   (values (commentStorage s))), s).
Proof.
  intros Hq Hid Hc Hon. unfold getQuoteComments. unfold_calls.
  destruct (find_is_Some (λ q, bool_decide (Quote.id q = quoteId)) _ q Hq)
    as [q' ->]; [by apply bool_decide_eq_true|].
  assert (c ∈ filter (λ c, Comment.quoteId c = quoteId)
                     (values (commentStorage s))) as Hin
    by by apply list_elem_of_filter.
  case_bool_decide as Hlen; [|done].
  apply nil_length_inv in Hlen. rewrite Hlen in Hin.
  by apply not_elem_of_nil in Hin.
Qed.

(** X9. When a stored quote has the id and a stored comment is on it,
    [getQuoteComments] succeeds and changes nothing. The list it returns
    has one entry for each stored comment on that quote, in the order of the
    store, and each entry carries the text of its comment as [comment] and
    the author name of its comment as [author]. *)
Theorem getQuoteComments_success quoteId s q c :
  q ∈ values (quoteStorage s) → Quote.id q = quoteId →
  c ∈ values (commentStorage s) → Comment.quoteId c = quoteId →
  ∃ l, getQuoteComments quoteId s = (Ok l, s) ∧
       l = (λ c', {| CommentsToDisplay.comment := Comment.comment c';
                     CommentsToDisplay.author := Comment.authorName c' |})
             <$> filter (λ c', Comment.quoteId c' = quoteId)
                        (values (commentStorage s)) ∧
       {| CommentsToDisplay.comment := Comment.comment c;
          CommentsToDisplay.author := Comment.authorName c |} ∈ l ∧
       ∀ d, d ∈ l ↔ ∃ c', c' ∈ values (commentStorage s) ∧
                          Comment.quoteId c' = quoteId ∧
                          CommentsToDisplay.comment d = Comment.comment c' ∧
                          CommentsToDisplay.author d = Comment.authorName c'.
Proof.
  intros Hq Hid Hc Hon. eexists.
  split; [by eapply getQuoteComments_filter|]. split; [done|]. split.
  - apply list_elem_of_fmap. exists c. split; [done|].
    by apply list_elem_of_filter.
  - intros d. rewrite list_elem_of_fmap. split.
    + intros (c' & -> & [Hc'q Hc']%list_elem_of_filter). eauto.
    + intros (c' & Hc' & Hc'q & Hcomment & Hauthor). exists c'.
      split; [|by apply list_elem_of_filter].
      destruct d. simpl in *. by subst.
Qed.

End Stored.

(** ** How the calls compose *)

Section Composition.
Context `{KeyOrder}.

Ltac unfold_calls :=
  unfold mbind, canister_bind, mret, canister_ret,
    quoteStorage_values, userStorage_values, commentStorage_values,
    quoteStorage_insert, userStorage_insert, commentStorage_insert,
    quoteStorage_remove, userStorage_remove, commentStorage_remove in *.

Lemma newQuote_Ok uuid time newUserQuote s q s1 :
  newQuote_checked uuid time newUserQuote s = (Ok q, s1) →
  ∃ u, u ∈ values (userStorage s) ∧
       User.id u = NewQuotePayload.authorId newUserQuote ∧
       q = {| Quote.id := uuid;
              Quote.authorId := NewQuotePayload.authorId newUserQuote;
              Quote.author := User.name u;
              Quote.quote := NewQuotePayload.quote newUserQuote;
              Quote.created := time;
              Quote.lastUpdate := None |} ∧
       s1 = {| quoteStorage := <[uuid := q]> (quoteStorage s);
               userStorage := userStorage s;
               commentStorage := commentStorage s |}.
Proof.
  unfold newQuote_checked, validateQuoteInput. unfold_calls.
  destruct (find _ _) as [u|] eqn:Hfind; [|done].
  apply find_Some_elem in Hfind as [Hu Hid%bool_decide_eq_true].
  intros [= <- <-]. by exists u.
Qed.


Lemma getQuoteComments_unknown quoteId s :
  wf s → quoteStorage s !! quoteId = None →
  getQuoteComments quoteId s = (Err UnknownQuote, s).
Proof.
  intros Hwf Hk. unfold getQuoteComments. unfold_calls.
  replace (find _ _) with (@None Quote.t); [done|].
  symmetry. apply find_None_all. intros q Hq%(stored_quote s q Hwf).
  apply bool_decide_eq_false. intros <-. congruence.
Qed.

Lemma getAllQuotes_stored s k q :
  quoteStorage s !! k = Some q →
  getAllQuotes s = (Ok (toDisplay <$> values (quoteStorage s)), s) ∧
  toDisplay q ∈ toDisplay <$> values (quoteStorage s).
Proof.
  intros Hk. assert (q ∈ values (quoteStorage s)) as Hin
    by (apply elem_of_values; eauto).
  split; [|apply list_elem_of_fmap; eauto].
  unfold getAllQuotes. unfold_calls. case_bool_decide as Hlen; [|done].
  apply nil_length_inv in Hlen. rewrite Hlen in Hin.
  by apply not_elem_of_nil in Hin.
Qed.

Lemma deleteUser_refused userId pinCode s :
  (∀ u, u ∈ values (userStorage s) → User.id u = userId →
        User.pinCode u ≠ pinCode) →
  deleteUser userId pinCode s = (Err UnauthorizedUser, s).
Proof.
  intros Hall. rewrite deleteUser_unfold.
  destruct (find _ _) as [w|] eqn:Hfind; [|done].
  apply find_Some_elem in Hfind as [Hw Hid%bool_decide_eq_true].
  case_decide as Hpin; [done|]. by destruct (Hall w).
Qed.

(** The creating calls of the older revision of [src/index.ts], which read
    no [isErr], return what the [_checked] readings return. *)
Lemma older_newQuote_checked uuid time newUserQuote s :
  Older.newQuote uuid time newUserQuote s = newQuote_checked uuid time newUserQuote s.
Proof.
  unfold Older.newQuote, newQuote_checked, validateQuoteInput. unfold_calls.
  by destruct (find _ _).
Qed.


Lemma older_newUser_checked uuid time payload s :
  validateUserInput payload = Ok tt →
  Older.newUser uuid time payload s = newUser_checked uuid time payload s.
Proof. intros Hvalid. unfold Older.newUser, newUser_checked. by rewrite Hvalid. Qed.

Lemma older_newUser_Ok uuid time payload s u s1 :
  Older.newUser uuid time payload s = (Ok u, s1) →
  u = user_of uuid time payload ∧
  s1 = {| quoteStorage := quoteStorage s;
          userStorage :=
            <[uuid +:+ NewUserPayload.pinCode payload := u]> (userStorage s);
          commentStorage := commentStorage s |} ∧
  ∀ w, w ∈ values (userStorage s) → User.name w ≠ NewUserPayload.name payload.
Proof.
  unfold Older.newUser. unfold_calls.
  destruct (find _ _) as [w|] eqn:Hfind; [done|].
  intros [= <- <-]. split; [done|]. split; [done|].
  intros w Hw. rewrite find_None_all in Hfind.
  by eapply bool_decide_eq_false, Hfind.
Qed.

(** X10. A quote that the [newQuote] of the older revision has created
    carries the name of a stored
    user whose id is the payload's [authorId], is stored under the generated
    id, and is listed by the next [getAllQuotes] with that id and name. *)
Theorem newQuote_then_getAllQuotes uuid time newUserQuote s q s1 :
  Older.newQuote uuid time newUserQuote s = (Ok q, s1) →
  Quote.id q = uuid ∧
  Quote.lastUpdate q = None ∧
  quoteStorage s1 !! uuid = Some q ∧
  (∃ u, u ∈ values (userStorage s) ∧
        User.id u = NewQuotePayload.authorId newUserQuote ∧
        Quote.author q = User.name u) ∧
  ∃ l, getAllQuotes s1 = (Ok l, s1) ∧
       {| QuoteToDisplay.id := uuid;
          QuoteToDisplay.quote := NewQuotePayload.quote newUserQuote;
          QuoteToDisplay.author := Quote.author q |} ∈ l.
Proof.
  rewrite older_newQuote_checked.
  intros (u & Hu & Hid & -> & ->)%newQuote_Ok. simpl.
  split; [done|]. split; [done|]. split; [apply lookup_insert_eq|].
  split; [by exists u|].
  set (q := Quote.mk _ _ _ _ _ _). set (s1 := mkState _ _ _).
  assert (quoteStorage s1 !! uuid = Some q) as Hk by apply lookup_insert_eq.
  destruct (getAllQuotes_stored s1 uuid q Hk) as [Hl Hin]. eauto.
Qed.


(** X12. Creating a user with the [newUser] of the older revision and
    deleting it again gives the state back: when the generated id is the id
    of no stored user, nothing is stored under the new key and no stored
    quote names the id as its author, [deleteUser] with the new id and the
    payload's pin code returns the user that [newUser] returned and leaves
    the state [newUser] started from. *)
Theorem newUser_deleteUser_roundtrip uuid time payload s u s1 :
  Older.newUser uuid time payload s = (Ok u, s1) →
  (∀ w, w ∈ values (userStorage s) → User.id w ≠ uuid) →
  userStorage s !! (uuid +:+ NewUserPayload.pinCode payload) = None →
  (∀ q, q ∈ values (quoteStorage s) → Quote.authorId q ≠ uuid) →
  deleteUser uuid (NewUserPayload.pinCode payload) s1 = (Ok u, s).
Proof.
  intros Hnew Hfresh Hfree Hquotes.
  pose proof (older_newUser_Ok _ _ _ _ _ _ Hnew) as (Hu & Hs1 & _).
  assert (quoteStorage s1 = quoteStorage s ∧
          commentStorage s1 = commentStorage s ∧
          userStorage s1 =
            <[uuid +:+ NewUserPayload.pinCode payload := u]> (userStorage s))
    as (Hq1 & Hc1 & Husers) by by rewrite Hs1.
  assert (userStorage s1 !! (uuid +:+ NewUserPayload.pinCode payload) = Some u)
    as Hstored by (rewrite Husers; apply lookup_insert_eq).
  rewrite deleteUser_unfold.
  rewrite (find_unique _ _ u); cycle 1.
  { apply elem_of_values. eauto. }
  { apply bool_decide_eq_true. by rewrite Hu. }
  { intros w [k Hk]%elem_of_values Hw%bool_decide_eq_true. rewrite Husers in Hk.
    apply lookup_insert_Some in Hk as [[_ ->]|[_ Hk]]; [done|].
    destruct (Hfresh w); [apply elem_of_values; eauto|done]. }
  rewrite decide_False by (rewrite Hu; simpl; auto). cbv zeta. rewrite Hstored.
  f_equal. unfold without_user. rewrite Hq1, Hc1, Husers.
  rewrite delete_insert_id by done.
  rewrite (filter_none (λ q, Quote.authorId q = uuid)) by (simpl; auto).
  simpl. apply state_eta.
Qed.

(** X13. Creating a quote with the [newQuote] of the older revision and
    deleting it again gives the state back: in a reachable state, when
    nothing is stored under the generated id and no stored comment refers to
    it, [deleteQuote] by the payload's author returns the quote that
    [newQuote] returned and leaves the state [newQuote] started from. *)
Theorem newQuote_deleteQuote_roundtrip uuid time newUserQuote s q s1 :
  reachable s →
  Older.newQuote uuid time newUserQuote s = (Ok q, s1) →
  quoteStorage s !! uuid = None →
  (∀ c, c ∈ values (commentStorage s) → Comment.quoteId c ≠ uuid) →
  deleteQuote uuid (NewQuotePayload.authorId newUserQuote) s1 = (Ok q, s).
Proof.
  rewrite older_newQuote_checked. intros Hs Hnew Hfree Hcomments.
  assert (wf s1) as Hwf1.
  { replace s1 with (newQuote_checked uuid time newUserQuote s).2 by by rewrite Hnew.
    by apply wf_newQuote, reachable_wf. }
  apply newQuote_Ok in Hnew as (u & Hu & Hid & Hq & Hs1).
  rewrite (deleteQuote_wf_unfold _ _ _ Hwf1).
  assert (quoteStorage s1 !! uuid = Some q) as -> by
    (rewrite Hs1; apply lookup_insert_eq).
  rewrite decide_True by by rewrite Hq.
  f_equal. rewrite Hs1. simpl. rewrite delete_insert_id by done.
  rewrite (filter_none (λ c, Comment.quoteId c = uuid)) by auto.
  simpl. apply state_eta.
Qed.

(** X14. A quote deleted in a reachable state is gone for the calls that
    follow: a second [deleteQuote] on its id, by anyone, is refused as not
    owned and changes nothing, and [getQuoteComments] on its id fails with
    [UnknownQuote]. *)
Theorem deleteQuote_then quoteId authorId s q s1 :
  reachable s →
  deleteQuote quoteId authorId s = (Ok q, s1) →
  (∀ authorId', deleteQuote quoteId authorId' s1 = (Err UnauthorizedQuote, s1)) ∧
  getQuoteComments quoteId s1 = (Err UnknownQuote, s1) ∧
  (∀ c, c ∈ values (commentStorage s1) → Comment.quoteId c ≠ quoteId).
Proof.
  intros Hwf%reachable_wf Hdel.
  assert (wf s1) as Hwf1.
  { eapply wf_shrinks; [done|].
    replace s1 with (deleteQuote quoteId authorId s).2 by by rewrite Hdel.
    apply deleteQuote_shrinks. }
  rewrite (deleteQuote_wf_unfold _ _ _ Hwf) in Hdel.
  destruct (quoteStorage s !! quoteId) as [q0|] eqn:Hk; [|done].
  case_decide; [|done]. injection Hdel as <- <-.
  set (s1 := mkState _ _ _) in *.
  assert (quoteStorage s1 !! quoteId = None) as Hnone by apply lookup_delete_eq.
  split; [|split].
  - intros authorId'. by rewrite (deleteQuote_wf_unfold _ _ _ Hwf1), Hnone.
  - by apply getQuoteComments_unknown.
  - intros c [k Hc]%elem_of_values.
    by apply (lookup_comments_off quoteId s k c Hwf) in Hc as [_ ?].
Qed.

(** X15. A user deleted in a reachable state is gone for the calls that
    follow: a second [deleteUser] with the same id and pin code is refused
    and changes nothing, [getMyUserData] no longer finds the user under its
    name and pin code, and [getQuoteComments] on any quote the user had
    authored fails with [UnknownQuote]. *)
Theorem deleteUser_then userId pinCode s u s1 :
  reachable s →
  deleteUser userId pinCode s = (Ok u, s1) →
  deleteUser userId pinCode s1 = (Err UnauthorizedUser, s1) ∧
  getMyUserData (NewUserPayload.mk (User.name u) (User.pinCode u)) s1 =
    (Err NotFoundCredentials, s1) ∧
  (∀ q, q ∈ values (quoteStorage s) → Quote.authorId q = userId →
        getQuoteComments (Quote.id q) s1 = (Err UnknownQuote, s1)).
Proof.
  intros Hwf%reachable_wf Hdel.
  pose proof (deleteUser_shrinks userId pinCode s) as Hshr.
  rewrite Hdel in Hshr. simpl in Hshr.
  pose proof (wf_shrinks _ _ Hwf Hshr) as Hwf1.
  assert (userStorage s1 = delete (userId +:+ pinCode) (userStorage s) ∧
          userStorage s !! (userId +:+ pinCode) = Some u ∧
          (∀ q, q ∈ values (quoteStorage s) → Quote.authorId q = userId →
                quoteStorage s1 !! Quote.id q = None)) as (Husers & Hu & Hquotes).
  { rewrite deleteUser_unfold in Hdel.
    destruct (find _ _) as [w|]; [|done]. case_decide; [done|]. cbv zeta in Hdel.
    destruct (userStorage s !! _) as [u'|] eqn:Hk; [|done].
    injection Hdel as <- <-. rewrite forEach_deleteQuote_users.
    split; [done|]. split; [done|]. intros q Hq Hauthor.
    set (s0 := without_user (userId +:+ pinCode) s).
    pose proof (wf_shrinks s s0 Hwf (without_user_shrinks _ s)) as Hwf0.
    destruct (forEach_deleteQuote_exact userId
      (filter (λ q, Quote.authorId q = userId) (values (quoteStorage s0))) s0 Hwf0)
      as [Hexact _].
    destruct (quoteStorage _ !! Quote.id q) as [q'|] eqn:Hq'; [|done].
    apply Hexact in Hq' as [Hq' Hnot]. destruct Hnot.
    change (quoteStorage s0) with (quoteStorage s) in *.
    rewrite (stored_quote s q Hwf Hq) in Hq'. injection Hq' as <-.
    split; [|done]. apply list_elem_of_fmap. exists q. split; [done|].
    by apply list_elem_of_filter. }
  split; [|split].
  - apply deleteUser_refused. intros w [k Hk]%elem_of_values Hid Hpin.
    pose proof (wf_user_key s1 Hwf1 k w Hk) as Hkey.
    rewrite Hid, Hpin in Hkey. subst k.
    by rewrite Husers, lookup_delete_eq in Hk.
  - unfold getMyUserData. unfold_calls. simpl.
    replace (find _ _) with (@None User.t); [done|].
    symmetry. apply find_None_all. intros w [k Hk]%elem_of_values.
    apply andb_false_iff. left. apply bool_decide_eq_false. intros Hname.
    rewrite Husers in Hk. apply lookup_delete_Some in Hk as [Hne Hk].
    apply Hne. symmetry. by eapply (wf_user_name s Hwf).
  - intros q Hq Hauthor. apply getQuoteComments_unknown; [done|]. by apply Hquotes.
Qed.

(** X22. The deletions only remove. [deleteComment] takes the one key from
    the comment map and touches nothing else; [deleteQuote] leaves the users
    and every quote under another id as they are and adds no comment;
    [deleteUser] leaves every user under another key as it is and adds no
    quote and no comment. *)
Theorem deletions_only_remove s :
  (∀ quoteId commentId authorId,
     quoteStorage (deleteComment quoteId commentId authorId s).2 = quoteStorage s ∧
     userStorage (deleteComment quoteId commentId authorId s).2 = userStorage s ∧
     commentStorage (deleteComment quoteId commentId authorId s).2 =
       delete commentId (commentStorage s)) ∧
  (∀ quoteId authorId,
     userStorage (deleteQuote quoteId authorId s).2 = userStorage s ∧
     commentStorage (deleteQuote quoteId authorId s).2 ⊆ commentStorage s ∧
     quoteStorage (deleteQuote quoteId authorId s).2 ⊆ quoteStorage s ∧
     ∀ k, k ≠ quoteId →
          quoteStorage (deleteQuote quoteId authorId s).2 !! k = quoteStorage s !! k) ∧
  (∀ userId pinCode,
     quoteStorage (deleteUser userId pinCode s).2 ⊆ quoteStorage s ∧
     commentStorage (deleteUser userId pinCode s).2 ⊆ commentStorage s ∧
     userStorage (deleteUser userId pinCode s).2 ⊆ userStorage s ∧
     ∀ k, k ≠ userId +:+ pinCode →
          userStorage (deleteUser userId pinCode s).2 !! k = userStorage s !! k).
Proof.
  split; [|split].
  - intros quoteId commentId authorId. by rewrite deleteComment_state.
  - intros quoteId authorId.
    destruct (deleteQuote_shrinks quoteId authorId s) as (Hq & _ & Hc).
    split; [apply deleteQuote_users|]. split; [done|]. split; [done|].
    intros k Hk. by apply deleteQuote_lookup_ne.
  - intros userId pinCode.
    destruct (deleteUser_shrinks userId pinCode s) as (Hq & Hu & Hc).
    split; [done|]. split; [done|]. split; [done|]. intros k Hk.
    rewrite deleteUser_unfold. destruct (find _ _); [|done].
    case_decide; [done|]. cbv zeta.
    destruct (userStorage s !! (userId +:+ pinCode)).
    + simpl. rewrite forEach_deleteQuote_users. simpl. by rewrite lookup_delete_ne.
    + simpl. by rewrite lookup_delete_ne.
Qed.

Lemma as_created_shrinks s s' : as_created s → shrinks s s' → as_created s'.
Proof.
  intros (Hu & Hq & Hc) (Hqs & Hus & Hcs). split; [|split].
  - intros k u Hk. eapply Hu. by eapply lookup_weaken.
  - intros k q Hk. eapply Hq. by eapply lookup_weaken.
  - intros k c Hk. eapply Hc. by eapply lookup_weaken.
Qed.

Lemma as_created_step c s : wf s → as_created s → as_created (step c s).
Proof.
  intros Hwf Hs. pose proof Hs as (Hu & Hq & Hc). destruct c; simpl.
  - rewrite newUser_unfold. destruct (falsy _ || falsy _); [done|].
    destruct (find _ _); [done|]. split; [|done]. simpl.
    intros k u. rewrite lookup_insert. case_decide; [by intros [= <-]|apply Hu].
  - unfold newQuote_checked, validateQuoteInput. unfold_calls.
    destruct (find _ _) as [u|] eqn:Hfind; [|done].
    apply find_Some_elem in Hfind as [[ku Hku]%elem_of_values _].
    split; [done|]. split; [|done]. simpl.
    intros k q. rewrite lookup_insert. case_decide; [|apply Hq].
    intros [= <-]. split; [done|]. by apply (wf_user_fields s Hwf ku u).
  - unfold addComment_checked, validateCommentInput. unfold_calls.
    destruct (find _ _) as [u|] eqn:Hfind; [|done].
    apply find_Some_elem in Hfind as [[ku Hku]%elem_of_values _].
    split; [done|]. split; [done|]. simpl.
    intros k c. rewrite lookup_insert. case_decide; [|apply Hc].
    intros [= <-]. split; [done|]. by apply (wf_user_fields s Hwf ku u).
  - eapply as_created_shrinks; [done|]. apply deleteQuote_shrinks.
  - eapply as_created_shrinks; [done|]. apply deleteComment_shrinks.
  - eapply as_created_shrinks; [done|]. apply deleteUser_shrinks.
Qed.

Lemma reachable_as_created s : reachable s → as_created s.
Proof.
  induction 1 as [|c s Hs IH]; [|by apply as_created_step; [apply reachable_wf|]].
  split; [|split]; simpl; intros k r Hk; by rewrite lookup_empty in Hk.
Qed.

(** X23. No call ever sets an update time: in every reachable state the
    [lastUpdate] of every stored user, quote and comment is unset, as the
    creating call left it. *)
Theorem lastUpdate_never_set s :
  reachable s →
  (∀ u, u ∈ values (userStorage s) → User.lastUpdate u = None) ∧
  (∀ q, q ∈ values (quoteStorage s) → Quote.lastUpdate q = None) ∧
  (∀ c, c ∈ values (commentStorage s) → Comment.lastUpdate c = None).
Proof.
  intros (Hu & Hq & Hc)%reachable_as_created. split; [|split].
  - intros u [k Hk]%elem_of_values. by eapply Hu.
  - intros q [k Hk]%elem_of_values. by eapply Hq.
  - intros c [k Hk]%elem_of_values. by eapply Hc.
Qed.


End Composition.

(** ** The revision of [src/unnamed/part_000], next to [src/index.ts] *)

Section Part000Deletes.
Context `{KeyOrder}.

Ltac unfold_calls :=
  unfold mbind, canister_bind, mret, canister_ret,
    quoteStorage_values, userStorage_values, commentStorage_values,
    quoteStorage_insert, userStorage_insert, commentStorage_insert,
    quoteStorage_remove, userStorage_remove, commentStorage_remove,
    Part000.quoteStorage_get in *.

Lemma forEach_ext {A B} (f g : A → Canister B) (l : list A) s :
  (∀ a s0, a ∈ l → f a s0 = g a s0) → forEach l f s = forEach l g s.
Proof.
  revert s. induction l as [|a l IH]; intros s Hfg; [done|]. simpl.
  unfold mbind, canister_bind. rewrite (Hfg a s) by left.
  destruct (g a s) as [b s1]. apply IH. intros a' s0 Ha'. apply Hfg. by right.
Qed.

Lemma part000_deleteComment_valid quoteId commentId authorId s :
  quoteId ≠ "" → commentId ≠ "" → authorId ≠ "" →
  Part000.deleteComment quoteId commentId authorId s =
  deleteComment quoteId commentId authorId s.
Proof.
  intros Hq Hc Ha. unfold Part000.deleteComment, falsy.
  by rewrite !bool_decide_eq_false_2.
Qed.

Lemma part000_deleteComment_quotes quoteId commentId authorId s :
  quoteStorage (Part000.deleteComment quoteId commentId authorId s).2 =
    quoteStorage s ∧
  userStorage (Part000.deleteComment quoteId commentId authorId s).2 =
    userStorage s.
Proof.
  unfold Part000.deleteComment. destruct (_ || _); [done|]. unfold_calls.
  destruct (commentStorage s !! commentId); [|done].
  by repeat case_bool_decide.
Qed.

Lemma part000_forEach_deleteComment_quotes quoteId authorId (l : list Comment.t) s :
  quoteStorage (forEach l (λ c, Part000.deleteComment quoteId (Comment.id c)
                                  authorId) s).2 = quoteStorage s ∧
  userStorage (forEach l (λ c, Part000.deleteComment quoteId (Comment.id c)
                                 authorId) s).2 = userStorage s.
Proof.
  revert s. induction l as [|c l IH]; intros s; [done|]. simpl.
  unfold mbind, canister_bind.
  destruct (part000_deleteComment_quotes quoteId (Comment.id c) authorId s)
    as [Hq Hu].
  destruct (Part000.deleteComment _ _ _ s) as [r s1]. simpl in *.
  destruct (IH s1) as [-> ->]. done.
Qed.

(** [Part000.deleteQuote] takes from the quote map at most the quote under
    the id, and only if the author is the one given. *)
Lemma part000_deleteQuote_keeps quoteId authorId s :
  userStorage (Part000.deleteQuote quoteId authorId s).2 = userStorage s ∧
  ∀ k q, quoteStorage s !! k = Some q → Quote.authorId q ≠ authorId →
         quoteStorage (Part000.deleteQuote quoteId authorId s).2 !! k = Some q.
Proof.
  unfold Part000.deleteQuote. destruct (_ || _); [done|]. unfold_calls.
  destruct (quoteStorage s !! quoteId) as [q0|] eqn:Hk0; [|done].
  case_bool_decide as Hauthor; [done|]. simpl. rewrite Hk0.
  set (s1 := mkState _ _ _).
  destruct (part000_forEach_deleteComment_quotes quoteId authorId
    (filter (λ c, Comment.quoteId c = quoteId) (values (commentStorage s1))) s1)
    as [Hq Hu].
  destruct (forEach _ _ s1) as [u s2]. subst s1. simpl in *. split; [done|].
  intros k q Hk Hne. rewrite Hq. apply lookup_delete_Some. split; [|done].
  intros <-. congruence.
Qed.

(** X16. The [deleteUser] of part_000 asks for no pin code: whatever user is
    stored under a non-empty id is removed and returned. Its cascade runs
    over the quotes of the caller, so every quote whose author is not the
    caller is still stored afterwards, also the quotes of the deleted
    user. *)
Theorem part000_deleteUser_cascades_over_caller caller userId s u :
  userId ≠ "" → userStorage s !! userId = Some u →
  ∃ s', Part000.deleteUser caller userId s = (Ok u, s') ∧
        userStorage s' = delete userId (userStorage s) ∧
        ∀ k q, quoteStorage s !! k = Some q → Quote.authorId q ≠ caller →
               quoteStorage s' !! k = Some q.
Proof.
  intros Hid Hk. unfold Part000.deleteUser, falsy.
  rewrite bool_decide_eq_false_2 by done. unfold_calls. rewrite Hk.
  set (s1 := mkState _ _ _).
  assert (∀ (l : list Quote.t) s0,
    userStorage (forEach l (λ q, Part000.deleteQuote (Quote.id q) caller) s0).2
      = userStorage s0 ∧
    ∀ k q, quoteStorage s0 !! k = Some q → Quote.authorId q ≠ caller →
           quoteStorage (forEach l (λ q, Part000.deleteQuote (Quote.id q) caller)
                                 s0).2 !! k = Some q) as Hfold.
  { induction l as [|q0 l IH]; intros s0; [done|]. simpl.
    unfold mbind, canister_bind.
    destruct (part000_deleteQuote_keeps (Quote.id q0) caller s0) as [Hu Hq].
    destruct (Part000.deleteQuote _ _ s0) as [r s2]. simpl in *.
    destruct (IH s2) as [Hu2 Hq2]. split; [by rewrite Hu2|].
    intros k q Hkq Hne. apply Hq2; [|done]. by apply Hq. }
  destruct (Hfold (filter (λ q, Quote.authorId q = caller)
                          (values (quoteStorage s1))) s1) as [Hu Hq].
  destruct (forEach _ _ s1) as [r s']. simpl in *. eauto.
Qed.

(** X17. Where every quote is stored under its id, the two revisions of
    [getQuoteComments] agree: reading the quote by its key, as part_000
    does, and scanning for its id, as [src/index.ts] does, give the same
    answer. *)
Theorem part000_getQuoteComments_agrees quoteId s :
  (∀ k q, quoteStorage s !! k = Some q → k = Quote.id q) →
  Part000.getQuoteComments quoteId s = getQuoteComments quoteId s.
Proof.
  intros Hkeys. unfold Part000.getQuoteComments, getQuoteComments. unfold_calls.
  destruct (quoteStorage s !! quoteId) as [q|] eqn:Hk.
  - destruct (find_is_Some (λ q, bool_decide (Quote.id q = quoteId))
                           (values (quoteStorage s)) q)
      as [q' ->]; [apply elem_of_values; eauto| |done].
    apply bool_decide_eq_true. symmetry. by apply Hkeys.
  - replace (find _ _) with (@None Quote.t); [done|].
    symmetry. apply find_None_all. intros q [k Hq]%elem_of_values.
    apply bool_decide_eq_false. intros <-.
    rewrite (Hkeys k q Hq) in Hq. congruence.
Qed.

(** X18. The guards of part_000 on empty arguments aside, its deletions do
    what those of [src/index.ts] do. [deleteComment] with an empty argument
    fails before it removes anything, and otherwise is the [deleteComment]
    of [src/index.ts]; [deleteQuote] with non-empty arguments, in a state
    whose quotes are stored under their ids and whose comments have
    non-empty ids, is the [deleteQuote] of [src/index.ts]. *)
Theorem part000_deletes_agree quoteId authorId s :
  (∀ commentId,
     quoteId = "" ∨ commentId = "" ∨ authorId = "" →
     Part000.deleteComment quoteId commentId authorId s =
     (Err Part000.InvalidDeleteComment, s)) ∧
  (∀ commentId,
     quoteId ≠ "" → commentId ≠ "" → authorId ≠ "" →
     Part000.deleteComment quoteId commentId authorId s =
     deleteComment quoteId commentId authorId s) ∧
  (quoteId ≠ "" → authorId ≠ "" →
   (∀ k q, quoteStorage s !! k = Some q → k = Quote.id q) →
   (∀ c, c ∈ values (commentStorage s) → Comment.id c ≠ "") →
   Part000.deleteQuote quoteId authorId s = deleteQuote quoteId authorId s).
Proof.
  split; [|split].
  - intros commentId Hempty. unfold Part000.deleteComment, falsy.
    destruct Hempty as [ -> | [ -> | -> ] ]; simpl;
      repeat (first [reflexivity | done | case_bool_decide; simpl]).
  - intros commentId. apply part000_deleteComment_valid.
  - intros Hq Ha Hkeys Hids. unfold Part000.deleteQuote, deleteQuote, falsy.
    rewrite !bool_decide_eq_false_2 by done. unfold_calls. simpl.
    destruct (quoteStorage s !! quoteId) as [q|] eqn:Hk.
    + case_bool_decide as Hauthor.
      * replace (find _ _) with (@None Quote.t); [done|].
        symmetry. apply find_None_all. intros q' [k Hq']%elem_of_values.
        apply andb_false_iff.
        destruct (decide (Quote.id q' = quoteId)) as [Hid|Hid];
          [right|left]; apply bool_decide_eq_false; [|done].
        rewrite (Hkeys k q' Hq'), Hid in Hq'. congruence.
      * destruct (find_is_Some
          (λ q, bool_decide (Quote.id q = quoteId)
                && bool_decide (Quote.authorId q = authorId))
          (values (quoteStorage s)) q)
          as [q' ->]; [apply elem_of_values; eauto| |].
        { apply andb_true_iff. split; apply bool_decide_eq_true; [|done].
          symmetry. by apply Hkeys. }
        simpl. rewrite ?Hk. simpl. rewrite guarded_forEach.
        set (s1 := mkState _ _ _).
        rewrite (forEach_ext
          (λ c, Part000.deleteComment quoteId (Comment.id c) authorId)
          (λ c, deleteComment quoteId (Comment.id c) authorId)); [done|].
        intros c s0 [_ Hc]%list_elem_of_filter.
        apply part000_deleteComment_valid; [done| |done]. by apply Hids.
    + replace (find _ _) with (@None Quote.t); [done|].
      symmetry. apply find_None_all. intros q' [k Hq']%elem_of_values.
      apply andb_false_iff. left. apply bool_decide_eq_false. intros Hid.
      rewrite (Hkeys k q' Hq'), Hid in Hq'. congruence.
Qed.

(** X19. In part_000 too a user that [newUser] has created is found again:
    from any state, [getMyUserData] on the same payload returns the user
    that [newUser] returned, which is stored under its id alone. *)
Theorem part000_newUser_getMyUserData uuid time payload s u s1 :
  Part000.newUser uuid time payload s = (Ok u, s1) →
  User.id u = uuid ∧
  userStorage s1 !! uuid = Some u ∧
  Part000.getMyUserData payload s1 = (Ok u, s1).
Proof.
  unfold Part000.newUser, Part000.getMyUserData.
  destruct (falsy _ || falsy _); [done|]. unfold_calls.
  destruct (find _ _) as [w|] eqn:Hfind; [done|]. intros [= <- <-]. simpl.
  split; [done|]. split; [apply lookup_insert_eq|].
  set (u := User.mk _ _ _ _ _).
  rewrite (find_unique _ _ u); [done| | |].
  - apply elem_of_values. exists uuid. apply lookup_insert_eq.
  - apply andb_true_iff. split; by apply bool_decide_eq_true.
  - intros w [k Hk]%elem_of_values [Hw%bool_decide_eq_true _]%andb_true_iff.
    apply lookup_insert_Some in Hk as [[_ <-]|[_ Hk]]; [done|].
    rewrite find_None_all in Hfind.
    assert (w ∈ values (userStorage s)) as Hin by (apply elem_of_values; eauto).
    apply Hfind, bool_decide_eq_false in Hin. done.
Qed.

End Part000Deletes.

(** ** The older revision in [src/index.ts], next to the current one *)

Section OlderRevision.
Context `{KeyOrder}.

Ltac unfold_calls :=
  unfold mbind, canister_bind, mret, canister_ret,
    quoteStorage_values, userStorage_values, commentStorage_values,
    quoteStorage_insert, userStorage_insert, commentStorage_insert,
    quoteStorage_remove, userStorage_remove, commentStorage_remove in *.

(** The first element a [filter] keeps is the element [find] returns. *)
Lemma filter_head_find {A} (P : A → Prop) `{∀ x, Decision (P x)} (l : list A) :
  filter P l !! 0 = find (λ x, bool_decide (P x)) l.
Proof.
  induction l as [|a l IH]; [done|]. simpl.
  rewrite filter_cons. case_bool_decide.
  - by rewrite decide_True.
  - by rewrite decide_False.
Qed.

Lemma find_pointwise {A} (f g : A → bool) (l : list A) :
  (∀ x, f x = g x) → find f l = find g l.
Proof.
  intros Hfg. induction l as [|a l IH]; [done|]. simpl.
  by rewrite Hfg, IH.
Qed.

Lemma forEach_state_ext {A B C} (f : A → Canister B) (g : A → Canister C)
    (l : list A) s :
  (∀ a s0, (f a s0).2 = (g a s0).2) → (forEach l f s).2 = (forEach l g s).2.
Proof.
  intros Hfg. revert s. induction l as [|a l IH]; intros s; [done|]. simpl.
  unfold mbind, canister_bind. specialize (Hfg a s).
  destruct (f a s) as [b s1], (g a s) as [c s2]. simpl in Hfg. subst s2.
  apply IH.
Qed.

Lemma older_deleteComment_agrees quoteId commentId authorId s :
  agree (Older.deleteComment quoteId commentId authorId s)
        (deleteComment quoteId commentId authorId s).
Proof.
  unfold Older.deleteComment, deleteComment. unfold_calls.
  destruct (commentStorage s !! commentId); [|done].
  by repeat case_bool_decide.
Qed.

Lemma older_deleteQuote_agrees quoteId authorId s :
  agree (Older.deleteQuote quoteId authorId s) (deleteQuote quoteId authorId s).
Proof.
  unfold Older.deleteQuote, deleteQuote. unfold_calls.
  destruct (find _ _); [|done].
  destruct (quoteStorage s !! quoteId); [|done]. simpl.
  rewrite !guarded_forEach. set (s1 := mkState _ _ _).
  pose proof (forEach_state_ext
    (λ c, Older.deleteComment quoteId (Comment.id c) authorId)
    (λ c, deleteComment quoteId (Comment.id c) authorId)
    (filter (λ c, Comment.quoteId c = quoteId) (values (commentStorage s1))) s1
    (λ c s0, proj1 (older_deleteComment_agrees _ _ _ s0))) as Hfe.
  destruct (forEach _ (λ c, Older.deleteComment _ _ _) s1) as [u1 s2].
  destruct (forEach _ (λ c, deleteComment _ _ _) s1) as [u2 s3].
  simpl in Hfe. by subst s3.
Qed.

Lemma older_getQuoteComments_agrees quoteId s :
  agree (Older.getQuoteComments quoteId s) (getQuoteComments quoteId s).
Proof.
  unfold Older.getQuoteComments, getQuoteComments. unfold_calls.
  destruct (find _ _); [|done]. by case_bool_decide.
Qed.

(** X20. The queries of the older revision answer as the current ones do and
    like them change nothing. [getMyUserData], which there filters the users
    and takes the first of those kept, succeeds exactly when the current one
    does, with the same user; [getQuoteComments] succeeds with the same list
    or fails together with the current one; [getAllQuotes] is the same
    function. Only the wording of two failures differs. *)
Theorem older_queries_agree s :
  (∀ payload,
     (Older.getMyUserData payload s).2 = s ∧
     (getMyUserData payload s).2 = s ∧
     (∀ u, (Older.getMyUserData payload s).1 = Ok u ↔
           (getMyUserData payload s).1 = Ok u) ∧
     ((Older.getMyUserData payload s).1 = Err Older.NotFoundCredentials ↔
      (getMyUserData payload s).1 = Err NotFoundCredentials)) ∧
  (∀ quoteId,
     agree (Older.getQuoteComments quoteId s) (getQuoteComments quoteId s)) ∧
  Older.getAllQuotes s = getAllQuotes s.
Proof.
  split; [|split; [intros quoteId; apply older_getQuoteComments_agrees|done]].
  intros payload.
  unfold Older.getMyUserData, getMyUserData. unfold_calls.
  pose proof (filter_head_find
    (λ u, User.name u = NewUserPayload.name payload
          ∧ User.pinCode u = NewUserPayload.pinCode payload)
    (values (userStorage s))) as Hhead.
  assert (∀ u, bool_decide (User.name u = NewUserPayload.name payload
                            ∧ User.pinCode u = NewUserPayload.pinCode payload)
               = bool_decide (User.name u = NewUserPayload.name payload)
                 && bool_decide (User.pinCode u = NewUserPayload.pinCode payload))
    as Hand.
  { intros u. repeat case_bool_decide; simpl; intuition. }
  rewrite (find_pointwise _ _ _ Hand) in Hhead.
  destruct (find _ _) as [u|] eqn:Hfind.
  - destruct (filter _ _) as [|u' l] eqn:Hfilter; [done|].
    injection Hhead as ->. simpl. done.
  - rewrite Hhead. case_bool_decide; done.
Qed.

(** X21. The three deletions of the older revision do what the current
    ones do: they leave the same state and succeed with the same record or
    fail together, under differently worded messages. *)
Theorem older_deletions_agree s :
  (∀ quoteId commentId authorId,
     agree (Older.deleteComment quoteId commentId authorId s)
           (deleteComment quoteId commentId authorId s)) ∧
  (∀ quoteId authorId,
     agree (Older.deleteQuote quoteId authorId s)
           (deleteQuote quoteId authorId s)) ∧
  (∀ userId pinCode,
     agree (Older.deleteUser userId pinCode s) (deleteUser userId pinCode s)).
Proof.
  split; [|split].
  - intros. apply older_deleteComment_agrees.
  - intros. apply older_deleteQuote_agrees.
  - intros userId pinCode. unfold Older.deleteUser, deleteUser. unfold_calls.
    destruct (find _ _) as [u|]; simpl; [|done].
    case_bool_decide as Hpin1; case_bool_decide as Hpin2; try done;
      try (by destruct Hpin1; congruence); try (by destruct Hpin2; congruence).
    destruct (userStorage s !! _); [|done]. simpl.
    rewrite !guarded_forEach. set (s1 := mkState _ _ _).
    pose proof (forEach_state_ext
      (λ q, Older.deleteQuote (Quote.id q) userId)
      (λ q, deleteQuote (Quote.id q) userId)
      (filter (λ q, Quote.authorId q = userId) (values (quoteStorage s1))) s1
      (λ q s0, proj1 (older_deleteQuote_agrees _ _ s0))) as Hfe.
    destruct (forEach _ (λ q, Older.deleteQuote _ _) s1) as [u1 s2].
    destruct (forEach _ (λ q, deleteQuote _ _) s1) as [u2 s3].
    simpl in Hfe. by subst s3.
Qed.

End OlderRevision.

(** ** The further properties at work on the example states *)

Section MoreExamples.
#[local] Existing Instance lexicographic.
Import Example.

Lemma example_values :
  values (userStorage with_comment) = [alice_user; bob_user] ∧
  values (quoteStorage with_comment) = [hello_quote] ∧
  values (commentStorage with_comment) = [nice_comment].
Proof. by vm_compute. Qed.

Lemma deleteQuote_success_exact_witness :
  ∃ s', deleteQuote "Q1" "U1" with_comment = (Ok hello_quote, s') ∧
        userStorage s' = userStorage with_comment ∧
        quoteStorage s' = delete "Q1" (quoteStorage with_comment) ∧
        ∀ k c, commentStorage s' !! k = Some c ↔
               commentStorage with_comment !! k = Some c ∧
               Comment.quoteId c ≠ "Q1".
Proof.
  apply (deleteQuote_success_exact "Q1" "U1" with_comment hello_quote).
  - apply reachable_run, reachable_init.
  - by vm_compute.
  - reflexivity.
Defined.

Lemma deleteQuote_never_not_found_witness :
  (deleteQuote "Q9" "U1" with_comment).1 ≠ Err NotFoundQuote ∧
  (quoteStorage with_comment !! "Q9" = None →
   deleteQuote "Q9" "U1" with_comment = (Err UnauthorizedQuote, with_comment)) ∧
  (∀ q, quoteStorage with_comment !! "Q9" = Some q → Quote.authorId q ≠ "U1" →
        deleteQuote "Q9" "U1" with_comment = (Err UnauthorizedQuote, with_comment)).
Proof.
  apply (deleteQuote_never_not_found "Q9" "U1" with_comment).
  apply reachable_run, reachable_init.
Defined.

Lemma deleteUser_exact_witness :
  userStorage (deleteUser "U1" "1111" with_comment).2 =
    delete ("U1" +:+ "1111") (userStorage with_comment) ∧
  (∀ k q, quoteStorage (deleteUser "U1" "1111" with_comment).2 !! k = Some q ↔
          quoteStorage with_comment !! k = Some q ∧ Quote.authorId q ≠ "U1") ∧
  (∀ k c, commentStorage (deleteUser "U1" "1111" with_comment).2 !! k = Some c ↔
          commentStorage with_comment !! k = Some c ∧
          ¬ on_quote_of "U1" (quoteStorage with_comment) c).
Proof.
  apply (deleteUser_exact "U1" "1111" with_comment alice_user).
  - apply reachable_run, reachable_init.
  - by vm_compute.
Defined.

Lemma deleteUser_never_not_found_witness :
  (deleteUser "U1" "9999" with_comment).1 ≠ Err NotFoundUser ∧
  deleteUser "U1" "9999" with_comment = (Err UnauthorizedUser, with_comment).
Proof.
  destruct (deleteUser_never_not_found "U1" "9999" with_comment)
    as (Hnever & Hrefused & _).
  - apply reachable_run, reachable_init.
  - split; [exact Hnever|]. apply Hrefused.
    intros u Hu. destruct example_values as [Hvalues _]. rewrite Hvalues in Hu.
    apply list_elem_of_In in Hu. simpl in Hu.
    destruct Hu as [<-|[<-|[]]]; by vm_compute.
Defined.

Lemma ids_are_keys_witness :
  quoteStorage with_comment !! Quote.id hello_quote = Some hello_quote ∧
  commentStorage with_comment !! Comment.id nice_comment = Some nice_comment.
Proof.
  destruct (ids_are_keys with_comment) as (Hquotes & Hcomments & _).
  - apply reachable_run, reachable_init.
  - split; [apply Hquotes | apply Hcomments];
      apply elem_of_values; [exists "Q1" | exists "C1"]; by vm_compute.
Defined.


Lemma getQuoteComments_success_witness :
  ∃ l, getQuoteComments "Q1" with_comment = (Ok l, with_comment) ∧
       l = (λ c', {| CommentsToDisplay.comment := Comment.comment c';
                     CommentsToDisplay.author := Comment.authorName c' |})
             <$> filter (λ c', Comment.quoteId c' = "Q1")
                        (values (commentStorage with_comment)) ∧
       {| CommentsToDisplay.comment := Comment.comment nice_comment;
          CommentsToDisplay.author := Comment.authorName nice_comment |} ∈ l ∧
       ∀ d, d ∈ l ↔ ∃ c', c' ∈ values (commentStorage with_comment) ∧
                          Comment.quoteId c' = "Q1" ∧
                          CommentsToDisplay.comment d = Comment.comment c' ∧
                          CommentsToDisplay.author d = Comment.authorName c'.
Proof.
  apply (getQuoteComments_success "Q1" with_comment hello_quote nice_comment).
  - apply elem_of_values. exists "Q1". by vm_compute.
  - reflexivity.
  - apply elem_of_values. exists "C1". by vm_compute.
  - reflexivity.
Defined.

Lemma newQuote_then_getAllQuotes_witness :
  Quote.id hello_quote = "Q1" ∧
  Quote.lastUpdate hello_quote = None ∧
  quoteStorage with_quote !! "Q1" = Some hello_quote ∧
  (∃ u, u ∈ values (userStorage two_users) ∧
        User.id u = NewQuotePayload.authorId hello ∧
        Quote.author hello_quote = User.name u) ∧
  ∃ l, getAllQuotes with_quote = (Ok l, with_quote) ∧
       {| QuoteToDisplay.id := "Q1";
          QuoteToDisplay.quote := NewQuotePayload.quote hello;
          QuoteToDisplay.author := Quote.author hello_quote |} ∈ l.
Proof.
  apply (newQuote_then_getAllQuotes "Q1" 3 hello two_users hello_quote with_quote).
  by vm_compute.
Defined.


Lemma newUser_deleteUser_roundtrip_witness :
  deleteUser "U3" "3333" (Older.newUser "U3" 5 carol with_comment).2 =
  (Ok carol_user, with_comment).
Proof.
  destruct example_values as (Husers & Hquotes & _).
  apply (newUser_deleteUser_roundtrip "U3" 5 carol with_comment carol_user).
  - by vm_compute.
  - intros w Hw. rewrite Husers in Hw. apply list_elem_of_In in Hw. simpl in Hw.
    destruct Hw as [<-|[<-|[]]]; by vm_compute.
  - by vm_compute.
  - intros q Hq. rewrite Hquotes in Hq. apply list_elem_of_In in Hq. simpl in Hq.
    destruct Hq as [<-|[]]. by vm_compute.
Defined.

Lemma newQuote_deleteQuote_roundtrip_witness :
  deleteQuote "Q2" "U1" (Older.newQuote "Q2" 5 again with_comment).2 =
  (Ok again_quote, with_comment).
Proof.
  destruct example_values as (_ & _ & Hcomments).
  apply (newQuote_deleteQuote_roundtrip "Q2" 5 again with_comment again_quote).
  - apply reachable_run, reachable_init.
  - by vm_compute.
  - by vm_compute.
  - intros c Hc. rewrite Hcomments in Hc. apply list_elem_of_In in Hc. simpl in Hc.
    destruct Hc as [<-|[]]. by vm_compute.
Defined.

Lemma deleteQuote_then_witness :
  (∀ authorId',
     deleteQuote "Q1" authorId' (deleteQuote "Q1" "U1" with_comment).2 =
     (Err UnauthorizedQuote, (deleteQuote "Q1" "U1" with_comment).2)) ∧
  getQuoteComments "Q1" (deleteQuote "Q1" "U1" with_comment).2 =
    (Err UnknownQuote, (deleteQuote "Q1" "U1" with_comment).2) ∧
  (∀ c, c ∈ values (commentStorage (deleteQuote "Q1" "U1" with_comment).2) →
        Comment.quoteId c ≠ "Q1").
Proof.
  apply (deleteQuote_then "Q1" "U1" with_comment hello_quote).
  - apply reachable_run, reachable_init.
  - by vm_compute.
Defined.

Lemma deleteUser_then_witness :
  deleteUser "U1" "1111" (deleteUser "U1" "1111" with_comment).2 =
    (Err UnauthorizedUser, (deleteUser "U1" "1111" with_comment).2) ∧
  getMyUserData alice (deleteUser "U1" "1111" with_comment).2 =
    (Err NotFoundCredentials, (deleteUser "U1" "1111" with_comment).2) ∧
  (∀ q, q ∈ values (quoteStorage with_comment) → Quote.authorId q = "U1" →
        getQuoteComments (Quote.id q) (deleteUser "U1" "1111" with_comment).2 =
        (Err UnknownQuote, (deleteUser "U1" "1111" with_comment).2)).
Proof.
  apply (deleteUser_then "U1" "1111" with_comment alice_user).
  - apply reachable_run, reachable_init.
  - by vm_compute.
Defined.

(** Anyone may delete alice in the revision of part_000; called by somebody
    who wrote no quote, the call leaves her quote Q1 behind. *)
Lemma part000_deleteUser_cascades_over_caller_witness :
  ∃ s', Part000.deleteUser "2vxsx-fae" "U1" part000_quotes = (Ok alice_user, s') ∧
        userStorage s' = delete "U1" (userStorage part000_quotes) ∧
        ∀ k q, quoteStorage part000_quotes !! k = Some q →
               Quote.authorId q ≠ "2vxsx-fae" → quoteStorage s' !! k = Some q.
Proof.
  apply (part000_deleteUser_cascades_over_caller "2vxsx-fae" "U1" part000_quotes
           alice_user); by vm_compute.
Defined.

Lemma part000_getQuoteComments_agrees_witness :
  Part000.getQuoteComments "Q1" with_comment = getQuoteComments "Q1" with_comment.
Proof.
  apply (part000_getQuoteComments_agrees "Q1" with_comment).
  apply wf_quote_key, reachable_wf, reachable_run, reachable_init.
Defined.

Lemma part000_newUser_getMyUserData_witness :
  User.id alice_user = "U1" ∧
  userStorage (Part000.newUser "U1" 1 alice init).2 !! "U1" = Some alice_user ∧
  Part000.getMyUserData alice (Part000.newUser "U1" 1 alice init).2 =
    (Ok alice_user, (Part000.newUser "U1" 1 alice init).2).
Proof.
  apply (part000_newUser_getMyUserData "U1" 1 alice init alice_user).
  by vm_compute.
Defined.

Lemma lastUpdate_never_set_witness :
  User.lastUpdate alice_user = None ∧
  Quote.lastUpdate hello_quote = None ∧
  Comment.lastUpdate nice_comment = None.
Proof.
  destruct (lastUpdate_never_set with_comment) as (Husers & Hquotes & Hcomments).
  - apply reachable_run, reachable_init.
  - split; [apply Husers | split; [apply Hquotes | apply Hcomments]];
      apply elem_of_values;
      [exists "U11111" | exists "Q1" | exists "C1"]; by vm_compute.
Defined.


End MoreExamples.
